(** * fbutils: the worker-thread pool and its completion helpers

    A model of [src/include/fbu/thread_pool.hpp] (classes [ThreadPool],
    [ThreadPoolJobsExecutor] and [JobCounter]) and of the older copy of the
    pool in [src/cpp/thread_pool.hpp], as an interleaving semantics.

    - Every block of the source that runs with [mJobsQueueMutex] (or an
      executor's or counter's [mMutex]) held is one atomic step.
    - A thread in a condition-variable wait whose predicate is false has no
      step (it is [Blocked]); it has one as soon as the predicate holds,
      which is what the [notify_one] / [notify_all] calls are there for.
      This is what the code does wherever the notifying thread holds the
      mutex of the wait ([addJob], the end of a job, the executor and the
      counter).  [~ThreadPool] changes [mTerminate] and notifies without
      the mutex; [Module Fine] spells out the mutex and the condition
      variable for it.
    - The [std::atomic_int] fields are 32-bit two's complement values:
      [++] and [--] wrap around ([wrap_int]).
    - A failed [assert] ends the run ([AssertionFailed], [None]).
    - One thread owns the pool and calls its interface; the workers are
      the threads started by the constructor.  A job is a finite sequence
      of atomic effects on the caller's data; it neither throws nor calls
      back into the pool.

    The last part models the file-name checks and the directory search of
    [src/include/fbu/filesystem_utils.hpp] ([Module fs]). *)

From Stdlib Require Import ZArith Lia Ascii.
From stdpp Require Import base list gmap strings.

Local Open Scope Z_scope.

(** ** Machine integers *)

Definition INT_MAX : Z := 2147483647.
Definition INT_MIN : Z := -2147483648.
Definition UINT_MOD : Z := 4294967296.

(** The value an [int] holds after an arithmetic result [z] is stored in it. *)
Definition wrap_int (z : Z) : Z := (z - INT_MIN) mod UINT_MOD + INT_MIN.

(** The conversion [(unsigned)z]. *)
Definition to_unsigned (z : Z) : Z := z mod UINT_MOD.

(** ** Jobs *)

(** What the body of a caller's lambda does, one atomic effect at a time:
    [USleep] stands for time passing inside the job
    ([std::this_thread::sleep_for] in [src/unnamed/part_000]) and [UIncr] for
    [++lCounter] on the caller's shared counter. *)
Inductive UserAction : Type :=
| USleep
| UIncr.

Record UserJob : Type := mkUserJob {
  job_tag : nat;
  job_body : list UserAction
}.

Definition ExecutorId : Type := nat.

(** A [std::function<void(void)>] held by [mJobsQueue]: either the caller's
    callable handed to [ThreadPool::addJob], or the lambda [[this, pJob]]
    that [ThreadPoolJobsExecutor::addJob] builds around it. *)
Inductive PoolJob : Type :=
| Direct (j : UserJob)
| Tracked (e : ExecutorId) (j : UserJob).

(** The atomic effects a worker performs while it runs [lJob()].
    [AExecutorDone e] is the tail of the executor's lambda:
    [{ lock(mMutex); --mNumJobs; mCompletion.notify_all(); }]. *)
Inductive Action : Type :=
| AUser (a : UserAction)
| AExecutorDone (e : ExecutorId).

Definition user_job (pj : PoolJob) : UserJob :=
  match pj with
  | Direct j => j
  | Tracked _ j => j
  end.

Definition job_actions (pj : PoolJob) : list Action :=
  match pj with
  | Direct j => map AUser (job_body j)
  | Tracked e j => map AUser (job_body j) ++ [AExecutorDone e]
  end.

(** ** Threads *)

(** Where a worker thread stands in [threadExecLoop]:
    - [WLoop]: at the test [while (!mTerminate)];
    - [WGrab]: inside [grabNextJob], at the wait on [mJobAvailableCV];
    - [WRun origin rest]: [grabNextJob] has returned ([mNumBusyThreads]
      already incremented) and [lJob()] still has [rest] to perform;
      [origin] is the job popped from the queue, or [None] for the
      stand-in [[]{}]; with [rest = []] the worker is about to decrement
      [mNumBusyThreads];
    - [WExit]: the loop has been left, the thread can be joined. *)
Inductive Worker : Type :=
| WLoop
| WGrab
| WRun (origin : option PoolJob) (rest : list Action)
| WExit.

(** The atomic statements of the thread that owns the pool:
    - [CPush pj]: the body of [ThreadPool::addJob];
    - [CWait]: [ThreadPool::waitForCompletion], over once its loop test
      is false;
    - [CExecIncr e]: [{ lock(mMutex); ++mNumJobs; }], the first block of
      [ThreadPoolJobsExecutor::addJob];
    - [CExecWait e]: [ThreadPoolJobsExecutor::waitForCompletion], over
      once [mNumJobs == 0];
    - [CSetTerminate]: [mTerminate = true; mJobAvailableCV.notify_all();];
    - [CJoin]: the joins of the destructor, over once every worker has
      left its loop, then [assert(mNumBusyThreads == 0)]. *)
Inductive Cmd : Type :=
| CPush (pj : PoolJob)
| CWait
| CExecIncr (e : ExecutorId)
| CExecWait (e : ExecutorId)
| CSetTerminate
| CJoin.

(** The calls of the public interface. *)
Inductive Call : Type :=
| AddJob (j : UserJob)
| WaitForCompletion
| ExecutorAddJob (e : ExecutorId) (j : UserJob)
| ExecutorWaitForCompletion (e : ExecutorId)
| Destroy.

(** [ThreadPool::addJob], [ThreadPool::waitForCompletion],
    [ThreadPoolJobsExecutor::addJob], [ThreadPoolJobsExecutor::waitForCompletion]
    and [ThreadPool::~ThreadPool] as sequences of atomic statements. *)
Definition expand (c : Call) : list Cmd :=
  match c with
  | AddJob j => [CPush (Direct j)]
  | WaitForCompletion => [CWait]
  | ExecutorAddJob e j => [CExecIncr e; CPush (Tracked e j)]
  | ExecutorWaitForCompletion e => [CExecWait e]
  | Destroy => [CSetTerminate; CJoin]
  end.

Fixpoint compile (cs : list Call) : list Cmd :=
  match cs with
  | [] => []
  | c :: cs' => expand c ++ compile cs'
  end.

(** ** State *)

Record State : Type := mkState {
  mThreads : list Worker;
  mTerminate : bool;
  mNumBusyThreads : Z;
  mJobsQueue : list PoolJob;
  (** [mNumJobs] of every [ThreadPoolJobsExecutor] (absent = 0) *)
  mNumJobs : gmap ExecutorId Z;
  (** the caller's shared counter *)
  lCounter : Z;
  (** what the owning thread still has to do *)
  client : list Cmd;
  (** history: jobs in the order of [addJob], of removal from the queue and
      of return from [lJob()] *)
  hSubmitted : list PoolJob;
  hDequeued : list PoolJob;
  hCompleted : list PoolJob
}.

Inductive Outcome : Type :=
| Next (st : State)
| Blocked
| AssertionFailed.

Definition numJobs (e : ExecutorId) (st : State) : Z :=
  default 0 (mNumJobs st !! e).

Definition set_thread (i : nat) (w : Worker) (st : State) : State :=
  mkState (<[i := w]> (mThreads st)) (mTerminate st) (mNumBusyThreads st)
          (mJobsQueue st) (mNumJobs st) (lCounter st) (client st)
          (hSubmitted st) (hDequeued st) (hCompleted st).

Definition set_busy (b : Z) (st : State) : State :=
  mkState (mThreads st) (mTerminate st) b
          (mJobsQueue st) (mNumJobs st) (lCounter st) (client st)
          (hSubmitted st) (hDequeued st) (hCompleted st).

Definition set_client (k : list Cmd) (st : State) : State :=
  mkState (mThreads st) (mTerminate st) (mNumBusyThreads st)
          (mJobsQueue st) (mNumJobs st) (lCounter st) k
          (hSubmitted st) (hDequeued st) (hCompleted st).

Definition set_numJobs (e : ExecutorId) (v : Z) (st : State) : State :=
  mkState (mThreads st) (mTerminate st) (mNumBusyThreads st)
          (mJobsQueue st) (<[e := v]> (mNumJobs st)) (lCounter st) (client st)
          (hSubmitted st) (hDequeued st) (hCompleted st).

(** ** The pool *)

(** The size given to [mThreads] by the constructor:
    [pNumThreads != 0 ? (unsigned)pNumThreads
       : (hardware_concurrency() != 0 ? hardware_concurrency() : 2u)]. *)
Definition ThreadPool_size (hardware_concurrency pNumThreads : Z) : Z :=
  if negb (pNumThreads =? 0) then to_unsigned pNumThreads
  else if negb (hardware_concurrency =? 0) then hardware_concurrency
  else 2.

(** The state once the constructor has returned: every thread has been
    started on [threadExecLoop]; [calls] is what the owner goes on to do. *)
Definition initial (n : nat) (calls : list Call) : State :=
  mkState (replicate n WLoop) false 0 [] ∅ 0 (compile calls) [] [] [].

Definition ThreadPool (hardware_concurrency pNumThreads : Z)
    (calls : list Call) : State :=
  initial (Z.to_nat (ThreadPool_size hardware_concurrency pNumThreads)) calls.

Definition getNumThreads (st : State) : Z := Z.of_nat (length (mThreads st)).

Definition getNumBusyThreads (st : State) : Z := mNumBusyThreads st.

(** [ThreadPool::addJob]: [mJobsQueue.push(pJob); notify_one()]. *)
Definition addJob (pj : PoolJob) (st : State) : State :=
  mkState (mThreads st) (mTerminate st) (mNumBusyThreads st)
          (mJobsQueue st ++ [pj]) (mNumJobs st) (lCounter st) (client st)
          (hSubmitted st ++ [pj]) (hDequeued st) (hCompleted st).

(** The loop test of [ThreadPool::waitForCompletion]:
    [mJobsQueue.size() > 0 || mNumBusyThreads > 0]. *)
Definition waitForCompletion_waits (st : State) : bool :=
  (0 <? Z.of_nat (length (mJobsQueue st))) || (0 <? mNumBusyThreads st).

(** The predicate of the wait in [grabNextJob]:
    [(mJobsQueue.size() > 0) || mTerminate]. *)
Definition jobAvailable (st : State) : bool :=
  (0 <? Z.of_nat (length (mJobsQueue st))) || mTerminate st.

(** [grabNextJob] from the moment the wait is over, run by worker [i]. *)
Definition grabNextJob (i : nat) (st : State) : Outcome :=
  if jobAvailable st then
    let st1 := set_busy (wrap_int (mNumBusyThreads st + 1)) st in
    if negb (mTerminate st1) then
      match mJobsQueue st1 with
      | [] => AssertionFailed
      | pj :: q =>
          Next (mkState (<[i := WRun (Some pj) (job_actions pj)]> (mThreads st1))
                        (mTerminate st1) (mNumBusyThreads st1) q
                        (mNumJobs st1) (lCounter st1) (client st1)
                        (hSubmitted st1) (hDequeued st1 ++ [pj]) (hCompleted st1))
      end
    else Next (set_thread i (WRun None []) st1)
  else Blocked.

(** One atomic effect of a running job. *)
Definition perform (a : Action) (st : State) : State :=
  match a with
  | AUser USleep => st
  | AUser UIncr =>
      mkState (mThreads st) (mTerminate st) (mNumBusyThreads st)
              (mJobsQueue st) (mNumJobs st) (lCounter st + 1) (client st)
              (hSubmitted st) (hDequeued st) (hCompleted st)
  | AExecutorDone e => set_numJobs e (wrap_int (numJobs e st - 1)) st
  end.

(** The block after [lJob()] in [threadExecLoop]:
    [{ lock; --mNumBusyThreads; mCompletionCV.notify_all(); }]. *)
Definition jobReturned (i : nat) (origin : option PoolJob) (st : State) : State :=
  mkState (<[i := WLoop]> (mThreads st)) (mTerminate st)
          (wrap_int (mNumBusyThreads st - 1))
          (mJobsQueue st) (mNumJobs st) (lCounter st) (client st)
          (hSubmitted st) (hDequeued st)
          (match origin with
           | Some pj => hCompleted st ++ [pj]
           | None => hCompleted st
           end).

(** One step of worker [i] through [threadExecLoop]. *)
Definition threadExecLoop (i : nat) (st : State) : Outcome :=
  match mThreads st !! i with
  | None => Blocked
  | Some WLoop =>
      Next (set_thread i (if mTerminate st then WExit else WGrab) st)
  | Some WGrab => grabNextJob i st
  | Some (WRun origin (a :: rest)) =>
      Next (set_thread i (WRun origin rest) (perform a st))
  | Some (WRun origin []) => Next (jobReturned i origin st)
  | Some WExit => Blocked
  end.

Definition exited (w : Worker) : bool :=
  match w with
  | WExit => true
  | _ => false
  end.

(** One step of the owning thread. *)
Definition clientStep (st : State) : Outcome :=
  match client st with
  | [] => Blocked
  | CPush pj :: k => Next (set_client k (addJob pj st))
  | CWait :: k =>
      if waitForCompletion_waits st then Blocked else Next (set_client k st)
  | CExecIncr e :: k =>
      Next (set_client k (set_numJobs e (wrap_int (numJobs e st + 1)) st))
  | CExecWait e :: k =>
      if numJobs e st =? 0 then Next (set_client k st) else Blocked
  | CSetTerminate :: k =>
      Next (mkState (mThreads st) true (mNumBusyThreads st)
                    (mJobsQueue st) (mNumJobs st) (lCounter st) k
                    (hSubmitted st) (hDequeued st) (hCompleted st))
  | CJoin :: k =>
      if forallb exited (mThreads st) then
        if mNumBusyThreads st =? 0 then Next (set_client k st)
        else AssertionFailed
      else Blocked
  end.

(** ** Interleavings *)

Inductive Label : Type :=
| LClient
| LWorker (i : nat).

Definition step (l : Label) (st : State) : Outcome :=
  match l with
  | LClient => clientStep st
  | LWorker i => threadExecLoop i st
  end.

Fixpoint run (ls : list Label) (st : State) : Outcome :=
  match ls with
  | [] => Next st
  | l :: ls' =>
      match step l st with
      | Next st' => run ls' st'
      | o => o
      end
  end.

Definition reachable (st0 st : State) : Prop :=
  exists ls, run ls st0 = Next st.

Definition state_after (ls : list Label) (st0 : State) : State :=
  match run ls st0 with
  | Next st => st
  | _ => st0
  end.

(** ** Counting *)

Definition running (w : Worker) : Z :=
  match w with
  | WRun _ _ => 1
  | _ => 0
  end.

(** The number of workers between the increment in [grabNextJob] and the
    decrement in [threadExecLoop]. *)
Fixpoint count_running (ws : list Worker) : Z :=
  match ws with
  | [] => 0
  | w :: ws' => running w + count_running ws'
  end.

(** ** Scenarios *)

(** The job of the test "10 threads busy, 100 jobs": sleep, then
    [++lCounter]. *)
Definition lFunction : UserJob := mkUserJob 0 [USleep; UIncr].

(** A job that increments at once. *)
Definition quickJob : UserJob := mkUserJob 1 [UIncr].

(** Two workers take [lFunction] and [quickJob] in this order; the second
    job returns first. *)
Definition overtaking : list Label :=
  [LClient; LClient; LWorker 0; LWorker 0; LWorker 1; LWorker 1;
   LWorker 1; LWorker 1; LWorker 0; LWorker 0; LWorker 0].

(** Both workers are inside their job. *)
Definition bothBusy : list Label :=
  [LClient; LClient; LWorker 0; LWorker 0; LWorker 1; LWorker 1].

(** A worker reaches the wait of [grabNextJob], the owner destroys the pool,
    the worker wakes up and takes the stand-in job. *)
Definition wokenByShutdown : list Label := [LWorker 0; LClient; LWorker 0].

(** ** Shutdown *)

(** No worker is inside a job that a caller submitted. *)
Definition runs_submitted_job (w : Worker) : bool :=
  match w with
  | WRun (Some _) _ => true
  | _ => false
  end.

(** ** Bookkeeping for the completion claims *)

Fixpoint sum_map {A : Type} (f : A -> Z) (l : list A) : Z :=
  match l with
  | [] => 0
  | x :: l' => f x + sum_map f l'
  end.

(** How many [++lCounter] a piece of code still has to perform. *)
Definition action_incr (a : Action) : Z :=
  match a with
  | AUser UIncr => 1
  | _ => 0
  end.

Definition user_incr (a : UserAction) : Z :=
  match a with
  | UIncr => 1
  | USleep => 0
  end.

Definition job_incrs (pj : PoolJob) : Z :=
  sum_map user_incr (job_body (user_job pj)).

Definition worker_incrs (w : Worker) : Z :=
  match w with
  | WRun _ rest => sum_map action_incr rest
  | _ => 0
  end.

Definition cmd_incrs (c : Cmd) : Z :=
  match c with
  | CPush pj => job_incrs pj
  | _ => 0
  end.

(** The increments of [lCounter] that are still to come. *)
Definition pending_incrs (st : State) : Z :=
  sum_map worker_incrs (mThreads st) + sum_map job_incrs (mJobsQueue st)
  + sum_map cmd_incrs (client st).

(** The program of the counting test: submit the jobs [js], then wait. *)
Definition submit_then_wait (js : list UserJob) : list Call :=
  map AddJob js ++ [WaitForCompletion].

(** Worker [i] takes the next job, runs it and reports back. *)
Definition serve_job (i : nat) (pj : PoolJob) : list Label :=
  [LWorker i; LWorker i]
  ++ replicate (length (job_actions pj)) (LWorker i) ++ [LWorker i].

Fixpoint serve_jobs (i : nat) (pjs : list PoolJob) : list Label :=
  match pjs with
  | [] => []
  | pj :: pjs' => serve_job i pj ++ serve_jobs i pjs'
  end.

(** The owner submits everything, worker 0 runs the jobs one after the
    other, the owner's wait returns. *)
Definition sequential_schedule (js : list UserJob) : list Label :=
  replicate (length js) LClient ++ serve_jobs 0 (map Direct js) ++ [LClient].

(** *** Which jobs have run *)

#[global] Instance UserAction_eq_dec : EqDecision UserAction.
Proof. solve_decision. Defined.

#[global] Instance UserJob_eq_dec : EqDecision UserJob.
Proof. solve_decision. Defined.

#[global] Instance PoolJob_eq_dec : EqDecision PoolJob.
Proof. solve_decision. Defined.

Definition is_job (pj x : PoolJob) : Z := if decide (x = pj) then 1 else 0.

(** How often [pj] occurs in a history. *)
Definition occurrences (pj : PoolJob) (l : list PoolJob) : Z :=
  sum_map (is_job pj) l.

(** 1 when the worker is inside [pj]. *)
Definition worker_job (pj : PoolJob) (w : Worker) : Z :=
  match w with
  | WRun (Some x) _ => is_job pj x
  | _ => 0
  end.

(** The jobs the owner has still to submit. *)
Fixpoint pushes_of (k : list Cmd) : list PoolJob :=
  match k with
  | [] => []
  | CPush pj :: k' => pj :: pushes_of k'
  | _ :: k' => pushes_of k'
  end.

(** *** Executors *)

Definition tracked_by (e : ExecutorId) (pj : PoolJob) : Z :=
  match pj with
  | Tracked e' _ => if Nat.eqb e e' then 1 else 0
  | Direct _ => 0
  end.

Definition action_done (e : ExecutorId) (a : Action) : Z :=
  match a with
  | AExecutorDone e' => if Nat.eqb e e' then 1 else 0
  | AUser _ => 0
  end.

Definition worker_tracked (e : ExecutorId) (w : Worker) : Z :=
  match w with
  | WRun _ rest => sum_map (action_done e) rest
  | _ => 0
  end.

(** 1 when the owner is inside [ThreadPoolJobsExecutor::addJob] of executor
    [e], between [++mNumJobs] and [mTP.addJob]. *)
Definition midcall (e : ExecutorId) (k : list Cmd) : Z :=
  match k with
  | CPush pj :: _ => tracked_by e pj
  | _ => 0
  end.

(** The jobs given to executor [e] that have not finished: being submitted,
    queued, or taken by a worker that has not yet run the decrement of
    [mNumJobs]. *)
Definition outstanding (e : ExecutorId) (st : State) : Z :=
  midcall e (client st) + sum_map (tracked_by e) (mJobsQueue st)
  + sum_map (worker_tracked e) (mThreads st).

(** The [++mNumJobs] of executor [e] that the owner has still to run. *)
Definition cmd_incr_of (e : ExecutorId) (c : Cmd) : Z :=
  match c with
  | CExecIncr e' => if Nat.eqb e e' then 1 else 0
  | _ => 0
  end.

Definition call_of (e : ExecutorId) (c : Call) : Z :=
  match c with
  | ExecutorAddJob e' _ => if Nat.eqb e e' then 1 else 0
  | _ => 0
  end.

(** What the owner's remaining statements look like: whole calls, possibly
    after the second half of a call in progress. *)
Definition client_wf (k : list Cmd) : Prop :=
  exists cs, k = compile cs \/
             (exists e j, k = CPush (Tracked e j) :: compile cs) \/
             k = CJoin :: compile cs.

(** Executors [0] and [1] share one pool of four workers. *)
Definition twoExecutors (waiter : ExecutorId) : list Call :=
  [ExecutorAddJob 0%nat lFunction; ExecutorAddJob 0%nat lFunction;
   ExecutorAddJob 1%nat lFunction; ExecutorAddJob 1%nat lFunction;
   ExecutorWaitForCompletion waiter].

(** The four jobs are taken by workers 0 to 3; only those of workers [a]
    and [b] run to their end, then the owner's wait is tried. *)
Definition twoFinish (a b : nat) : list Label :=
  replicate 8 LClient
  ++ [LWorker 0; LWorker 0; LWorker 1; LWorker 1;
      LWorker 2; LWorker 2; LWorker 3; LWorker 3]
  ++ replicate 3 (LWorker a) ++ replicate 3 (LWorker b) ++ [LClient].

(** ** Invariants *)

(** [mNumBusyThreads] counts the workers that are between the increment of
    [grabNextJob] and the decrement of [threadExecLoop]. *)
Record pool_inv (n : nat) (st : State) : Prop := mkPoolInv {
  inv_threads : length (mThreads st) = n;
  inv_busy : mNumBusyThreads st = count_running (mThreads st)
}.

(** While the counting test runs: the pool is not being destroyed, the
    owner has only submissions and the wait left, and once the wait has
    returned the queue is empty and nobody is busy. *)
Record counting_inv (st : State) : Prop := mkCountingInv {
  cnt_alive : mTerminate st = false;
  cnt_client : client st = [] \/
               exists js, client st = map (fun j => CPush (Direct j)) js ++ [CWait];
  cnt_idle : client st = [] -> mJobsQueue st = [] /\ mNumBusyThreads st = 0
}.

(** [mNumJobs] of executor [e] is the number of its unfinished jobs, as
    long as it is given no more jobs than an [int] can count. *)
Record executor_inv (e : ExecutorId) (M : Z) (st : State) : Prop := mkExecInv {
  ex_wf : client_wf (client st);
  ex_count : numJobs e st = outstanding e st;
  ex_bound : outstanding e st + sum_map (cmd_incr_of e) (client st) <= M
}.

(** The jobs given to executor [e] that have not finished: being submitted,
    queued, or held by a worker that has not yet run the lambda of
    [ThreadPoolJobsExecutor::addJob], the user's job and then the decrement
    of [mNumJobs], to its end. *)
Definition worker_unfinished (e : ExecutorId) (w : Worker) : Z :=
  match w with
  | WRun (Some pj) (_ :: _) => tracked_by e pj
  | _ => 0
  end.

Definition unfinished (e : ExecutorId) (st : State) : Z :=
  midcall e (client st) + sum_map (tracked_by e) (mJobsQueue st)
  + sum_map (worker_unfinished e) (mThreads st).

(** What a worker has left to run is the end of the job it took. *)
Definition worker_coherent (w : Worker) : Prop :=
  match w with
  | WRun (Some pj) rest => exists done, job_actions pj = done ++ rest
  | WRun None rest => rest = []
  | _ => True
  end.

(** [mNumJobs] of executor [e] is the number of its unfinished jobs, modulo
    2^32 as the [std::atomic_int] counts. *)
Record executor_count_inv (e : ExecutorId) (st : State) : Prop := mkExecCountInv {
  ec_wf : client_wf (client st);
  ec_workers : Forall worker_coherent (mThreads st);
  ec_count : numJobs e st = wrap_int (outstanding e st)
}.

(** Executor [0] is given [m] jobs and then waited for. *)
Definition manyJobs (m : nat) : list Call :=
  repeat (ExecutorAddJob 0%nat lFunction) m ++ [ExecutorWaitForCompletion 0%nat].

(** The owner runs the [m] calls of [addJob]; no worker moves. *)
Fixpoint manySubmissions (m : nat) : list Label :=
  match m with
  | O => []
  | S m' => LClient :: LClient :: manySubmissions m'
  end.

(** ** The job counter *)

Module JobCounter.

(** [increment]: [++mNumJobs]. *)
Definition increment (mNumJobs : Z) : Z := wrap_int (mNumJobs + 1).

(** [decrement]: [assert(mNumJobs > 0); --mNumJobs; notify_all()];
    [None] is the failed assertion. *)
Definition decrement (mNumJobs : Z) : option Z :=
  if 0 <? mNumJobs then Some (wrap_int (mNumJobs - 1)) else None.

(** [waitForCompletion] returns once its predicate [mNumJobs == 0] holds. *)
Definition waitForCompletion_returns (mNumJobs : Z) : bool := mNumJobs =? 0.

Inductive Op : Type :=
| Increment
| Decrement.

(** The calls of all threads in the order in which they got [mMutex]. *)
Fixpoint run (ops : list Op) (mNumJobs : Z) : option Z :=
  match ops with
  | [] => Some mNumJobs
  | Increment :: ops' => run ops' (increment mNumJobs)
  | Decrement :: ops' =>
      match decrement mNumJobs with
      | Some c => run ops' c
      | None => None
      end
  end.

Definition is_increment (o : Op) : Z :=
  match o with
  | Increment => 1
  | Decrement => 0
  end.

Definition is_decrement (o : Op) : Z :=
  match o with
  | Increment => 0
  | Decrement => 1
  end.

(** Every [Decrement] comes after an [Increment] of its own; [open] is
    the number of increments not yet used up. *)
Fixpoint paired_from (open : nat) (ops : list Op) : bool :=
  match ops with
  | [] => true
  | Increment :: ops' => paired_from (S open) ops'
  | Decrement :: ops' =>
      match open with
      | O => false
      | S open' => paired_from open' ops'
      end
  end.

Definition paired (ops : list Op) : bool := paired_from 0 ops.

(** No [increment] is called while [mNumJobs] is [INT_MAX]: starting from
    [count], the number of increments not yet undone never has to go
    beyond what the [int] can hold. *)
Fixpoint within_int_from (count : Z) (ops : list Op) : bool :=
  match ops with
  | [] => true
  | Increment :: ops' =>
      (count + 1 <=? INT_MAX) && within_int_from (count + 1) ops'
  | Decrement :: ops' => within_int_from (count - 1) ops'
  end.

Definition within_int (ops : list Op) : bool := within_int_from 0 ops.

End JobCounter.

(** [INT_MAX + 1] calls. *)
Definition two_pow_31 : nat := Z.to_nat 2147483648.

(** As many jobs as the counter has values. *)
Definition two_pow_32 : nat := Z.to_nat 4294967296.

(** ** The older pool, [src/cpp/thread_pool.hpp] *)

Module Legacy.

(** Its constructor gives [mNumBusyThreads] no value: the count starts at
    whatever value [b0] the memory holds.  [initial] is the case [b0 = 0],
    the start of the current pool. *)
Definition constructed (b0 : Z) (n : nat) (calls : list Call) : State :=
  set_busy b0 (initial n calls).

(** The loop test of its [waitForCompletion]:
    [mJobsQueue.size() > 0 && mNumBusyThreads > 0]. *)
Definition waitForCompletion_waits (st : State) : bool :=
  (0 <? Z.of_nat (length (mJobsQueue st))) && (0 <? mNumBusyThreads st).

(** The owner's statements; this file has no [ThreadPoolJobsExecutor] and
    its destructor has no assertion. *)
Definition clientStep (st : State) : Outcome :=
  match client st with
  | [] => Blocked
  | CPush pj :: k => Next (set_client k (addJob pj st))
  | CWait :: k =>
      if waitForCompletion_waits st then Blocked else Next (set_client k st)
  | CExecIncr _ :: _ => Blocked
  | CExecWait _ :: _ => Blocked
  | CSetTerminate :: k =>
      Next (mkState (mThreads st) true (mNumBusyThreads st)
                    (mJobsQueue st) (mNumJobs st) (lCounter st) k
                    (hSubmitted st) (hDequeued st) (hCompleted st))
  | CJoin :: k =>
      if forallb exited (mThreads st) then Next (set_client k st) else Blocked
  end.

(** Its workers run the same loop: wait for [mJobsQueue.size() ||
    mTerminate], [++mNumBusyThreads], take [front()] unless terminating,
    run the job, [--mNumBusyThreads], [notify_all()]. *)
Definition step (l : Label) (st : State) : Outcome :=
  match l with
  | LClient => clientStep st
  | LWorker i => threadExecLoop i st
  end.

Fixpoint run (ls : list Label) (st : State) : Outcome :=
  match ls with
  | [] => Next st
  | l :: ls' =>
      match step l st with
      | Next st' => run ls' st'
      | o => o
      end
  end.

End Legacy.

(** One job is submitted, the single worker takes it and is still inside
    it when the owner calls [waitForCompletion]. *)
Definition waitWhileRunning : list Label :=
  [LClient; LWorker 0; LWorker 0; LClient].

(** ** More bookkeeping *)

(** 1 when the worker is inside a job taken from the queue. *)
Definition holds_job (w : Worker) : Z :=
  match w with
  | WRun (Some _) _ => 1
  | _ => 0
  end.

(** 1 when the worker has left [threadExecLoop]. *)
Definition exited_count (w : Worker) : Z :=
  match w with
  | WExit => 1
  | _ => 0
  end.

(** 1 when the worker is inside the stand-in [[]{}] of [grabNextJob]. *)
Definition holds_standin (w : Worker) : Z :=
  match w with
  | WRun None _ => 1
  | _ => 0
  end.

(** The program of the test "ThreadPoolJobsExecutor": give the jobs [js] to
    executor [e], then wait on the executor. *)
Definition executor_test (e : ExecutorId) (js : list UserJob) : list Call :=
  map (ExecutorAddJob e) js ++ [ExecutorWaitForCompletion e].

(** What is left of the lambda of [ThreadPoolJobsExecutor::addJob] ends
    with the decrement of [mNumJobs]. *)
Definition ends_with_done (e : ExecutorId) (w : Worker) : Prop :=
  match w with
  | WRun _ rest => rest = [] \/ last rest = Some (AExecutorDone e)
  | _ => True
  end.

(** While the executor test runs. *)
Record executor_test_inv (e : ExecutorId) (st : State) : Prop := mkExecTestInv {
  et_alive : mTerminate st = false;
  et_queue : Forall (fun pj => tracked_by e pj = 1) (mJobsQueue st);
  et_workers : Forall (ends_with_done e) (mThreads st);
  et_client : client st = [] \/
              (exists js, client st = compile (executor_test e js)) \/
              (exists j js, client st
                            = CPush (Tracked e j) :: compile (executor_test e js));
  et_done : client st = [] -> outstanding e st = 0
}.

(** ** Shutdown, with the mutex and the condition variable spelled out

    [~ThreadPool] stores [mTerminate] and calls [notify_all] without taking
    [mJobsQueueMutex], so both can fall between a worker's test of the wait
    predicate and the moment the worker blocks.  This model keeps the two
    apart.  [mJobAvailableCV.wait(lLock, pred)] is
    [while (!pred()) wait(lLock)]; [wait(lLock)] releases the mutex and
    blocks in one step, and the thread goes on, by taking the mutex again,
    after a notification that found it blocked or after a spurious wake-up
    (which the standard allows and does not promise).  The blocks of the
    source that hold the mutex and cannot block are still one step each,
    taken when the mutex is free.  The owner's [waitForCompletion] is a
    guard as before: every [notify_all] on [mCompletionCV] is sent with
    the mutex held.  Jobs are the callables given to [ThreadPool::addJob]. *)

Module Fine.

(** Where a worker is in [threadExecLoop] and [grabNextJob]. *)
Inductive Pc : Type :=
| AtLoop        (* [while (!mTerminate)], line 147 *)
| AtLock        (* line 162: taking [mJobsQueueMutex] *)
| AtPredicate   (* line 164, mutex held: about to evaluate the predicate *)
| AtBlock       (* line 164, mutex held: the predicate was false *)
| Asleep        (* line 164: blocked on [mJobAvailableCV], mutex released *)
| Notified      (* line 164: unblocked, taking the mutex again *)
| AtTake        (* lines 166-177, mutex held: the predicate was true *)
| InJob (rest : list UserAction)  (* [lJob()], then lines 151-155 *)
| Exited.

(** The owner's statements; [~ThreadPool] is [destroy]. *)
Inductive Cmd : Type :=
| CPush (j : UserJob)
| CWait
| CSetTerminate
| CNotifyAll
| CJoin.

Definition destroy : list Cmd := [CSetTerminate; CNotifyAll; CJoin].

Record State : Type := mkState {
  mThreads : list Pc;
  mJobsQueueMutex : option nat;   (* the worker that holds it, if one does *)
  mTerminate : bool;
  mNumBusyThreads : Z;
  mJobsQueue : list UserJob;
  lCounter : Z;
  owner : list Cmd
}.

Inductive Outcome : Type :=
| Next (st : State)
| Blocked
| AssertionFailed.

Definition initial (n : nat) (cmds : list Cmd) : State :=
  mkState (replicate n AtLoop) None false 0 [] 0 cmds.

Definition set_thread (i : nat) (pc : Pc) (st : State) : State :=
  mkState (<[i := pc]> (mThreads st)) (mJobsQueueMutex st) (mTerminate st)
          (mNumBusyThreads st) (mJobsQueue st) (lCounter st) (owner st).

Definition set_mutex (m : option nat) (st : State) : State :=
  mkState (mThreads st) m (mTerminate st)
          (mNumBusyThreads st) (mJobsQueue st) (lCounter st) (owner st).

Definition set_owner (k : list Cmd) (st : State) : State :=
  mkState (mThreads st) (mJobsQueueMutex st) (mTerminate st)
          (mNumBusyThreads st) (mJobsQueue st) (lCounter st) k.

Definition perform (a : UserAction) (st : State) : State :=
  match a with
  | USleep => st
  | UIncr =>
      mkState (mThreads st) (mJobsQueueMutex st) (mTerminate st)
              (mNumBusyThreads st) (mJobsQueue st) (lCounter st + 1) (owner st)
  end.

(** The predicate of line 164. *)
Definition jobAvailable (st : State) : bool :=
  (0 <? Z.of_nat (length (mJobsQueue st))) || mTerminate st.

Definition asleep (pc : Pc) : bool :=
  match pc with
  | Asleep => true
  | _ => false
  end.

Definition exited (pc : Pc) : bool :=
  match pc with
  | Exited => true
  | _ => false
  end.

(** [notify_all]: the threads blocked at this moment are unblocked; a
    thread that blocks later is not. *)
Definition notify_all (ws : list Pc) : list Pc :=
  map (fun pc => if asleep pc then Notified else pc) ws.

(** [notify_one]: one of the threads blocked at this moment, [pick], is
    unblocked; nothing happens when none is blocked. *)
Definition notify_one (pick : nat) (ws : list Pc) : option (list Pc) :=
  if existsb asleep ws then
    match ws !! pick with
    | Some Asleep => Some (<[pick := Notified]> ws)
    | _ => None
    end
  else Some ws.

(** One step of worker [i]. *)
Definition threadExecLoop (i : nat) (st : State) : Outcome :=
  match mThreads st !! i with
  | Some AtLoop =>
      Next (set_thread i (if mTerminate st then Exited else AtLock) st)
  | Some AtLock | Some Notified =>
      match mJobsQueueMutex st with
      | None => Next (set_mutex (Some i) (set_thread i AtPredicate st))
      | Some _ => Blocked
      end
  | Some AtPredicate =>
      Next (set_thread i (if jobAvailable st then AtTake else AtBlock) st)
  | Some AtBlock => Next (set_mutex None (set_thread i Asleep st))
  | Some Asleep => Blocked
  | Some AtTake =>
      let busy := wrap_int (mNumBusyThreads st + 1) in
      if negb (mTerminate st) then
        match mJobsQueue st with
        | [] => AssertionFailed
        | j :: q =>
            Next (mkState (<[i := InJob (job_body j)]> (mThreads st)) None
                          (mTerminate st) busy q (lCounter st) (owner st))
        end
      else
        Next (mkState (<[i := InJob []]> (mThreads st)) None
                      (mTerminate st) busy (mJobsQueue st) (lCounter st)
                      (owner st))
  | Some (InJob (a :: rest)) => Next (set_thread i (InJob rest) (perform a st))
  | Some (InJob []) =>
      match mJobsQueueMutex st with
      | None =>
          Next (mkState (<[i := AtLoop]> (mThreads st)) None (mTerminate st)
                        (wrap_int (mNumBusyThreads st - 1)) (mJobsQueue st)
                        (lCounter st) (owner st))
      | Some _ => Blocked
      end
  | Some Exited | None => Blocked
  end.

(** One step of the owner:
    - [CPush j]: [addJob], lines 116-118, with the mutex;
    - [CWait]: [waitForCompletion], lines 127-131, with the mutex;
    - [CSetTerminate]: line 101, [CNotifyAll]: line 102, both without it;
    - [CJoin]: lines 103-107. *)
Definition ownerStep (pick : nat) (st : State) : Outcome :=
  match owner st with
  | [] => Blocked
  | CPush j :: k =>
      match mJobsQueueMutex st, notify_one pick (mThreads st) with
      | None, Some ws =>
          Next (mkState ws None (mTerminate st) (mNumBusyThreads st)
                        (mJobsQueue st ++ [j]) (lCounter st) k)
      | _, _ => Blocked
      end
  | CWait :: k =>
      match mJobsQueueMutex st with
      | None =>
          if (0 <? Z.of_nat (length (mJobsQueue st))) || (0 <? mNumBusyThreads st)
          then Blocked
          else Next (set_owner k st)
      | Some _ => Blocked
      end
  | CSetTerminate :: k =>
      Next (mkState (mThreads st) (mJobsQueueMutex st) true
                    (mNumBusyThreads st) (mJobsQueue st) (lCounter st) k)
  | CNotifyAll :: k =>
      Next (mkState (notify_all (mThreads st)) (mJobsQueueMutex st)
                    (mTerminate st) (mNumBusyThreads st) (mJobsQueue st)
                    (lCounter st) k)
  | CJoin :: k =>
      if forallb exited (mThreads st)
      then if mNumBusyThreads st =? 0 then Next (set_owner k st)
           else AssertionFailed
      else Blocked
  end.

(** A schedule names, step by step, the thread that moves; [LSpurious i]
    is a spurious wake-up of worker [i]. *)
Inductive Label : Type :=
| LOwner (pick : nat)
| LWorker (i : nat)
| LSpurious (i : nat).

Definition step (l : Label) (st : State) : Outcome :=
  match l with
  | LOwner pick => ownerStep pick st
  | LWorker i => threadExecLoop i st
  | LSpurious i =>
      match mThreads st !! i with
      | Some Asleep => Next (set_thread i Notified st)
      | _ => Blocked
      end
  end.

Fixpoint run (ls : list Label) (st : State) : Outcome :=
  match ls with
  | [] => Next st
  | l :: ls' =>
      match step l st with
      | Next st' => run ls' st'
      | o => o
      end
  end.

(** The worker has tested the predicate and not yet blocked when the owner
    runs lines 101 and 102; then it blocks. *)
Definition lostWakeup : list Label :=
  [LWorker 0; LWorker 0; LWorker 0; LOwner 0; LOwner 0; LWorker 0].

(** The same after a job has been submitted, run and waited for. *)
Definition lostWakeupAfterWait : list Label :=
  replicate 4 (LWorker 0) ++ [LOwner 0] ++ replicate 6 (LWorker 0)
  ++ [LOwner 0] ++ replicate 3 (LWorker 0) ++ [LOwner 0; LOwner 0; LWorker 0].

(** The worker is already blocked when the owner runs lines 101 and 102. *)
Definition orderlyShutdown : list Label :=
  replicate 4 (LWorker 0) ++ [LOwner 0; LOwner 0]
  ++ replicate 5 (LWorker 0) ++ [LOwner 0].

End Fine.

(** ** File names and directories, [src/include/fbu/filesystem_utils.hpp] *)

Module fs.

(** [separator]: a backslash under [_WIN32], a slash otherwise. *)
Definition separator (win32 : bool) : string :=
  if win32 then String "092"%char EmptyString else "/".

(** [std::string lFileName(pFileName)]: the characters of the C string, up
    to the first NUL. *)
Fixpoint c_str (p : string) : string :=
  match p with
  | EmptyString => EmptyString
  | String c p' =>
      if Ascii.eqb c "000"%char then EmptyString else String c (c_str p')
  end.

(** The part of [std::regex] the two patterns use: bracket expressions,
    concatenation and [*]; [regex_match] must consume the whole string.
    The matcher goes by derivatives. *)
Inductive Regex : Type :=
| RNone
| REps
| RClass (ranges : list (ascii * ascii))
| RSeq (r1 r2 : Regex)
| RAlt (r1 r2 : Regex)
| RStar (r : Regex).

Definition in_range (c : ascii) (range : ascii * ascii) : bool :=
  (N_of_ascii (fst range) <=? N_of_ascii c)%N
  && (N_of_ascii c <=? N_of_ascii (snd range))%N.

Definition in_class (ranges : list (ascii * ascii)) (c : ascii) : bool :=
  existsb (in_range c) ranges.

Fixpoint nullable (r : Regex) : bool :=
  match r with
  | RNone => false
  | REps => true
  | RClass _ => false
  | RSeq r1 r2 => nullable r1 && nullable r2
  | RAlt r1 r2 => nullable r1 || nullable r2
  | RStar _ => true
  end.

Fixpoint deriv (c : ascii) (r : Regex) : Regex :=
  match r with
  | RNone => RNone
  | REps => RNone
  | RClass ranges => if in_class ranges c then REps else RNone
  | RSeq r1 r2 =>
      if nullable r1 then RAlt (RSeq (deriv c r1) r2) (deriv c r2)
      else RSeq (deriv c r1) r2
  | RAlt r1 r2 => RAlt (deriv c r1) (deriv c r2)
  | RStar r1 => RSeq (deriv c r1) (RStar r1)
  end.

Fixpoint regex_match (s : string) (r : Regex) : bool :=
  match s with
  | EmptyString => nullable r
  | String c s' => regex_match s' (deriv c r)
  end.

(** [[a-zA-Z0-9._]] *)
Definition first_class : list (ascii * ascii) :=
  [("a"%char, "z"%char); ("A"%char, "Z"%char); ("0"%char, "9"%char);
   ("."%char, "."%char); ("_"%char, "_"%char)].

(** [[a-zA-Z0-9._\-]] *)
Definition rest_class : list (ascii * ascii) :=
  first_class ++ [("-"%char, "-"%char)].

(** [[a-zA-Z0-9._\-\ ]] *)
Definition relaxed_rest_class : list (ascii * ascii) :=
  first_class ++ [("-"%char, "-"%char); (" "%char, " "%char)].

(** [isPOSIXFullyPortableFileName]. *)
Definition isPOSIXFullyPortableFileName (pFileName : string) : bool :=
  let lFileName := c_str pFileName in
  if String.eqb lFileName "." || String.eqb lFileName ".."
     || (14 <? String.length lFileName)%nat
  then false
  else regex_match lFileName (RSeq (RClass first_class) (RStar (RClass rest_class))).

(** [isPOSIXFullyPortableFileNameRelaxed]. *)
Definition isPOSIXFullyPortableFileNameRelaxed (pFileName : string) : bool :=
  let lFileName := c_str pFileName in
  if String.eqb lFileName "." || String.eqb lFileName ".."
     || (254 <? String.length lFileName)%nat
  then false
  else regex_match lFileName
         (RSeq (RClass first_class) (RStar (RClass relaxed_rest_class))).

(** The words of the comment above [isPOSIXFullyPortableFileName]. *)
Definition is_alnum (c : ascii) : bool :=
  ((97 <=? N_of_ascii c) && (N_of_ascii c <=? 122))%N
  || ((65 <=? N_of_ascii c) && (N_of_ascii c <=? 90))%N
  || ((48 <=? N_of_ascii c) && (N_of_ascii c <=? 57))%N.

Definition is_portable_first (c : ascii) : bool :=
  is_alnum c || Ascii.eqb c "."%char || Ascii.eqb c "_"%char.

Definition is_portable (c : ascii) : bool :=
  is_portable_first c || Ascii.eqb c "-"%char.

Definition is_portable_relaxed (c : ascii) : bool :=
  is_portable c || Ascii.eqb c " "%char.

(** A character that splits a path: slash, backslash or NUL. *)
Definition splits_path (c : ascii) : bool :=
  Ascii.eqb c "/"%char || Ascii.eqb c "092"%char || Ascii.eqb c "000"%char.

Fixpoint all_chars (f : ascii -> bool) (s : string) : bool :=
  match s with
  | EmptyString => true
  | String c s' => f c && all_chars f s'
  end.

(** [PossibleError<T>] ([fbu/possible_error.hpp] is not part of the
    sources): an [errno] value or a result. *)
Definition PossibleError (T : Type) : Type := (Z + T)%type.

Section Directories.

(** [fbu::string::endsWith] and [fbu::string::beginsWith]
    ([fbu/string_utils.hpp] is not part of the sources). *)
Variable endsWith : string -> string -> bool.
Variable beginsWith : string -> string -> bool.

(** The value of the macro [ENOENT]. *)
Variable ENOENT : Z.

(** What [opendir] and the [readdir] loop give for a path: the [errno] of
    a failed [opendir], or the [d_name] of every entry in the order in
    which [readdir] returns them. *)
Variable opendir : string -> Z + list string.

Variable win32 : bool.

(** [listDir]. *)
Definition listDir (pPath pEnding : string) : PossibleError (list string) :=
  match opendir pPath with
  | inl errno => inl errno
  | inr entries =>
      inr (if String.eqb pEnding EmptyString then entries
           else List.filter (fun lEntryName => endsWith lEntryName pEnding)
                            entries)
  end.

(** [pathForFileWithRootInDir]. *)
Definition pathForFileWithRootInDir (pDir pFileNameRoot : string)
    : PossibleError string :=
  match listDir pDir EmptyString with
  | inl mError => inl mError
  | inr lList =>
      match List.find (fun e => beginsWith e pFileNameRoot) lList with
      | Some e => inr (String.append pDir (String.append (separator win32) e))
      | None => inl ENOENT
      end
  end.

End Directories.

End fs.

(** ** Basic facts *)

Lemma wrap_int_id (z : Z) : INT_MIN <= z <= INT_MAX -> wrap_int z = z.
Proof.
  unfold wrap_int, INT_MIN, INT_MAX, UINT_MOD. intros H.
  rewrite Z.mod_small; lia.
Qed.

Lemma wrap_int_range (z : Z) : INT_MIN <= wrap_int z <= INT_MAX.
Proof.
  unfold wrap_int, INT_MIN, INT_MAX, UINT_MOD.
  pose proof (Z.mod_pos_bound (z - -2147483648) 4294967296). lia.
Qed.

Lemma running_range (w : Worker) : 0 <= running w <= 1.
Proof. destruct w; simpl; lia. Qed.

Lemma count_running_range (ws : list Worker) :
  0 <= count_running ws <= Z.of_nat (length ws).
Proof.
  induction ws as [|w ws IH]; simpl; [lia|].
  pose proof (running_range w). lia.
Qed.

Lemma count_running_insert (ws : list Worker) (i : nat) (w w' : Worker) :
  ws !! i = Some w ->
  count_running (<[i := w']> ws) = count_running ws - running w + running w'.
Proof.
  revert i. induction ws as [|x ws IH]; intros [|i] H; simpl in *; try discriminate.
  - injection H as ->. lia.
  - rewrite (IH i H). lia.
Qed.

Lemma count_running_replicate (n : nat) : count_running (replicate n WLoop) = 0.
Proof. induction n as [|n IH]; simpl; [reflexivity | exact IH]. Qed.

Lemma run_app (ls1 ls2 : list Label) (st st1 : State) :
  run ls1 st = Next st1 -> run (ls1 ++ ls2) st = run ls2 st1.
Proof.
  revert st. induction ls1 as [|l ls1 IH]; intros st H; simpl in *.
  - injection H as ->. reflexivity.
  - destruct (step l st); try discriminate. apply IH. exact H.
Qed.

Lemma reachable_refl (st : State) : reachable st st.
Proof. exists []. reflexivity. Qed.

Lemma reachable_step (st0 st st' : State) (l : Label) :
  reachable st0 st -> step l st = Next st' -> reachable st0 st'.
Proof.
  intros [ls H] Hs. exists (ls ++ [l]).
  rewrite (run_app _ _ _ _ H). simpl. rewrite Hs. reflexivity.
Qed.

Lemma reachable_trans (st0 st1 st2 : State) :
  reachable st0 st1 -> reachable st1 st2 -> reachable st0 st2.
Proof.
  intros [ls1 H1] [ls2 H2]. exists (ls1 ++ ls2).
  rewrite (run_app _ _ _ _ H1). exact H2.
Qed.

(** Invariants are proved step by step. *)
Lemma reachable_invariant (P : State -> Prop) (st0 : State) :
  P st0 ->
  (forall l st st', P st -> step l st = Next st' -> P st') ->
  forall st, reachable st0 st -> P st.
Proof.
  intros H0 Hstep st [ls H]. revert st0 H0 H.
  induction ls as [|l ls IH]; intros st0 H0 H; simpl in H.
  - injection H as <-. exact H0.
  - destruct (step l st0) as [st1| |] eqn:E; try discriminate.
    apply (IH st1); [apply (Hstep l st0 st1 H0 E) | exact H].
Qed.

(** Case analysis of one step: every way [step l st] can be [Next st']. *)
Ltac step_cases H :=
  unfold step, clientStep, threadExecLoop, grabNextJob, jobAvailable,
    waitForCompletion_waits in H;
  cbv zeta in H;
  repeat match type of H with
         | context [match ?x with _ => _ end] =>
             lazymatch type of x with
             | State => fail
             | _ => destruct x eqn:?
             end
         end;
  try discriminate H;
  injection H as <-.

(** A job's effects touch neither the pool nor the histories. *)
Lemma perform_frame (a : Action) (st : State) :
  mThreads (perform a st) = mThreads st /\
  mTerminate (perform a st) = mTerminate st /\
  mNumBusyThreads (perform a st) = mNumBusyThreads st /\
  mJobsQueue (perform a st) = mJobsQueue st /\
  client (perform a st) = client st /\
  hSubmitted (perform a st) = hSubmitted st /\
  hDequeued (perform a st) = hDequeued st /\
  hCompleted (perform a st) = hCompleted st.
Proof. destruct a as [[|]|e]; simpl; repeat split; reflexivity. Qed.

Ltac perform_frame :=
  repeat match goal with
         | |- context [perform ?a ?s] =>
             let F := fresh "F" in
             pose proof (perform_frame a s) as F;
             destruct F as (F1 & F2 & F3 & F4 & F5 & F6 & F7 & F8);
             rewrite ?F1, ?F2, ?F3, ?F4, ?F5, ?F6, ?F7, ?F8;
             clear F1 F2 F3 F4 F5 F6 F7 F8
         | H : context [perform ?a ?s] |- _ =>
             let F := fresh "F" in
             pose proof (perform_frame a s) as F;
             destruct F as (F1 & F2 & F3 & F4 & F5 & F6 & F7 & F8);
             progress (rewrite ?F1, ?F2, ?F3, ?F4, ?F5, ?F6, ?F7, ?F8 in H);
             clear F1 F2 F3 F4 F5 F6 F7 F8
         end.

(** ** The pool invariants *)

(** The assertion [assert(!mJobsQueue.empty())] of [grabNextJob] holds
    whenever it is reached. *)
Lemma grabNextJob_assertion_holds (i : nat) (st : State) :
  grabNextJob i st <> AssertionFailed.
Proof.
  unfold grabNextJob, jobAvailable.
  destruct (mJobsQueue st) as [|pj q] eqn:Hq; simpl; rewrite ?Hq;
    destruct (mTerminate st); simpl; congruence.
Qed.

(** [mThreads] is sized by the constructor and only ever updated in place. *)
Lemma threads_fixed_step (l : Label) (st st' : State) :
  step l st = Next st' -> length (mThreads st') = length (mThreads st).
Proof.
  intros H. step_cases H; simpl; perform_frame;
    rewrite ?length_insert; reflexivity.
Qed.

Lemma threads_fixed (st0 st : State) :
  reachable st0 st -> length (mThreads st) = length (mThreads st0).
Proof.
  apply (reachable_invariant
           (fun s => length (mThreads s) = length (mThreads st0))).
  - reflexivity.
  - intros l s s' IH H. rewrite (threads_fixed_step _ _ _ H). exact IH.
Qed.

(** Jobs leave the queue in the order they entered it. *)
Lemma fifo_step (l : Label) (st st' : State) :
  hSubmitted st = hDequeued st ++ mJobsQueue st ->
  step l st = Next st' ->
  hSubmitted st' = hDequeued st' ++ mJobsQueue st'.
Proof.
  intros Hfifo H.
  step_cases H; simpl in *; perform_frame; try assumption;
    rewrite Hfifo;
    repeat match goal with
           | E : mJobsQueue _ = _ |- _ => rewrite E
           end;
    rewrite <- ?app_assoc; reflexivity.
Qed.

Lemma fifo_reachable (n : nat) (calls : list Call) (st : State) :
  reachable (initial n calls) st ->
  hSubmitted st = hDequeued st ++ mJobsQueue st.
Proof.
  apply (reachable_invariant
           (fun s => hSubmitted s = hDequeued s ++ mJobsQueue s)).
  - reflexivity.
  - intros l s s' IH H. exact (fifo_step l s s' IH H).
Qed.

Lemma pool_inv_initial (n : nat) (calls : list Call) :
  pool_inv n (initial n calls).
Proof.
  split; simpl.
  - apply length_replicate.
  - symmetry. apply count_running_replicate.
Qed.

Lemma pool_inv_step (n : nat) (l : Label) (st st' : State) :
  Z.of_nat n <= INT_MAX ->
  pool_inv n st -> step l st = Next st' -> pool_inv n st'.
Proof.
  intros Hn [Hlen Hbusy] H.
  pose proof (count_running_range (mThreads st)) as Hr.
  assert (Hw : forall i w w', mThreads st !! i = Some w ->
             0 <= count_running (mThreads st) - running w + running w'
               <= Z.of_nat n).
  { intros i w w' Hi.
    rewrite <- (count_running_insert _ i w w' Hi).
    pose proof (count_running_range (<[i := w']> (mThreads st))) as Hr'.
    rewrite length_insert, Hlen in Hr'. exact Hr'. }
  unfold INT_MAX in Hn.
  step_cases H; simpl in *; split; simpl; perform_frame;
    rewrite ?length_insert; try assumption;
    try (erewrite count_running_insert by eassumption; simpl);
    try (match goal with
         | Hi : mThreads _ !! ?i = Some ?w |- _ =>
             pose proof (Hw i w (WRun None []) Hi) as Hw1;
             pose proof (Hw i w WLoop Hi) as Hw2; simpl in Hw1, Hw2
         end;
         rewrite ?wrap_int_id by (unfold INT_MIN, INT_MAX; lia); lia);
    try (destruct (mTerminate st); simpl; lia).
Qed.

Lemma pool_inv_reachable (n : nat) (calls : list Call) (st : State) :
  Z.of_nat n <= INT_MAX ->
  reachable (initial n calls) st -> pool_inv n st.
Proof.
  intros Hn. apply (reachable_invariant (pool_inv n)).
  - apply pool_inv_initial.
  - intros l s s' IH H. exact (pool_inv_step n l s s' Hn IH H).
Qed.

(** ** Worker count (constructor and [getNumThreads]) *)

Lemma getNumThreads_initial (n : nat) (calls : list Call) :
  getNumThreads (initial n calls) = Z.of_nat n.
Proof. unfold getNumThreads. simpl. rewrite length_replicate. reflexivity. Qed.

(** C5. A pool asked for [N >= 1] threads has [N] of them; asked for [0] it
    has [hardware_concurrency()] of them when that is not zero and [2]
    otherwise; the number is positive in every case and no step of any
    thread changes it. *)
Theorem worker_count_fixed_at_construction
    (hardware_concurrency pNumThreads : Z) (calls : list Call) (st : State) :
  0 <= hardware_concurrency < UINT_MOD ->
  INT_MIN <= pNumThreads <= INT_MAX ->
  reachable (ThreadPool hardware_concurrency pNumThreads calls) st ->
  getNumThreads st = ThreadPool_size hardware_concurrency pNumThreads /\
  (1 <= pNumThreads -> getNumThreads st = pNumThreads) /\
  (pNumThreads = 0 ->
   getNumThreads st =
     if hardware_concurrency =? 0 then 2 else hardware_concurrency) /\
  0 < getNumThreads st.
Proof.
  intros Hhw Hp Hreach.
  assert (Hsize : 0 < ThreadPool_size hardware_concurrency pNumThreads).
  { unfold ThreadPool_size, to_unsigned, UINT_MOD in *.
    destruct (Z.eqb_spec pNumThreads 0) as [->|Hne]; simpl.
    - destruct (Z.eqb_spec hardware_concurrency 0); simpl; lia.
    - unfold INT_MIN, INT_MAX in Hp.
      destruct (Z_lt_le_dec pNumThreads 0).
      + replace pNumThreads with (pNumThreads + 4294967296 - 1 * 4294967296) by lia.
        rewrite Zminus_mod, Z_mod_mult, Z.sub_0_r, Z.mod_mod by lia.
        rewrite Z.mod_small; lia.
      + rewrite Z.mod_small; lia. }
  assert (Hnum : getNumThreads st = ThreadPool_size hardware_concurrency pNumThreads).
  { unfold getNumThreads. rewrite (threads_fixed _ _ Hreach).
    unfold ThreadPool. simpl. rewrite length_replicate. lia. }
  rewrite Hnum. repeat split; try assumption.
  - intros H1. unfold ThreadPool_size, to_unsigned, UINT_MOD, INT_MAX in *.
    destruct (Z.eqb_spec pNumThreads 0); simpl; [lia|].
    rewrite Z.mod_small; lia.
  - intros ->. unfold ThreadPool_size. simpl.
    destruct (hardware_concurrency =? 0); reflexivity.
Qed.

Lemma worker_count_fixed_at_construction_witness :
  getNumThreads (state_after bothBusy (ThreadPool 8 3 [AddJob lFunction; AddJob quickJob])) = 3 /\
  getNumThreads (state_after bothBusy (ThreadPool 0 0 [AddJob lFunction; AddJob quickJob])) = 2.
Proof.
  split.
  - apply (worker_count_fixed_at_construction 8 3
             [AddJob lFunction; AddJob quickJob]);
      [ unfold UINT_MOD; lia | unfold INT_MIN, INT_MAX; lia
      | exists bothBusy; vm_compute; reflexivity | lia ].
  - apply (worker_count_fixed_at_construction 0 0
             [AddJob lFunction; AddJob quickJob]);
      [ unfold UINT_MOD; lia | unfold INT_MIN, INT_MAX; lia
      | exists bothBusy; vm_compute; reflexivity | reflexivity ].
Defined.

(** ** Busy count *)

(** C6. In every reachable state of a pool with [n] workers the busy count
    is the number of workers between the increment of [grabNextJob] and the
    decrement of [threadExecLoop]; it starts at 0 and stays within
    [0 .. n]. *)
Theorem busy_count_within_workers (n : nat) (calls : list Call) (st : State) :
  Z.of_nat n <= INT_MAX ->
  reachable (initial n calls) st ->
  getNumBusyThreads (initial n calls) = 0 /\
  getNumThreads st = Z.of_nat n /\
  getNumBusyThreads st = count_running (mThreads st) /\
  0 <= getNumBusyThreads st <= getNumThreads st.
Proof.
  intros Hn Hreach.
  destruct (pool_inv_reachable n calls st Hn Hreach) as [Hlen Hbusy].
  unfold getNumBusyThreads, getNumThreads.
  pose proof (count_running_range (mThreads st)) as Hr.
  rewrite Hbusy, Hlen in *. repeat split; try reflexivity; lia.
Qed.

Lemma busy_count_within_workers_witness :
  getNumBusyThreads
    (state_after bothBusy (initial 2 [AddJob lFunction; AddJob quickJob])) = 2 /\
  0 <= getNumBusyThreads
         (state_after bothBusy (initial 2 [AddJob lFunction; AddJob quickJob]))
    <= getNumThreads
         (state_after bothBusy (initial 2 [AddJob lFunction; AddJob quickJob])).
Proof.
  split; [vm_compute; reflexivity|].
  apply (busy_count_within_workers 2 [AddJob lFunction; AddJob quickJob]);
    [ unfold INT_MAX; lia | exists bothBusy; vm_compute; reflexivity ].
Defined.

(** ** Queue order *)

(** C4. The jobs taken from the queue so far, followed by those still in
    it, are the submitted jobs in submission order: [addJob] appends at the
    tail and a worker takes the front.  Completion order is not fixed: in
    [overtaking] the job submitted second returns first. *)
Theorem jobs_dequeued_in_submission_order
    (n : nat) (calls : list Call) (st : State) :
  reachable (initial n calls) st ->
  hSubmitted st = hDequeued st ++ mJobsQueue st /\
  (forall pj, mJobsQueue (addJob pj st) = mJobsQueue st ++ [pj]) /\
  (forall i pj q,
      mThreads st !! i = Some WGrab -> mTerminate st = false ->
      mJobsQueue st = pj :: q ->
      exists st', threadExecLoop i st = Next st' /\
                  mJobsQueue st' = q /\
                  hDequeued st' = hDequeued st ++ [pj] /\
                  mThreads st' !! i = Some (WRun (Some pj) (job_actions pj))) /\
  (exists st2,
      reachable (initial 2 [AddJob lFunction; AddJob quickJob]) st2 /\
      hSubmitted st2 = [Direct lFunction; Direct quickJob] /\
      hDequeued st2 = [Direct lFunction; Direct quickJob] /\
      hCompleted st2 = [Direct quickJob; Direct lFunction]).
Proof.
  intros Hreach. split; [exact (fifo_reachable n calls st Hreach)|].
  split; [reflexivity|]. split.
  - intros i pj q Hi Ht Hq.
    unfold threadExecLoop, grabNextJob, jobAvailable. rewrite Hi. simpl.
    rewrite Ht, Hq. simpl. eexists. split; [reflexivity|]. simpl.
    repeat split. apply list_lookup_insert_eq.
    apply lookup_lt_Some in Hi. exact Hi.
  - exists (state_after overtaking (initial 2 [AddJob lFunction; AddJob quickJob])).
    split; [exists overtaking|]; vm_compute; repeat split; reflexivity.
Qed.

Lemma jobs_dequeued_in_submission_order_witness :
  hDequeued (state_after bothBusy (initial 2 [AddJob lFunction; AddJob quickJob]))
  = [Direct lFunction; Direct quickJob] /\
  hSubmitted (state_after bothBusy (initial 2 [AddJob lFunction; AddJob quickJob]))
  = hDequeued (state_after bothBusy (initial 2 [AddJob lFunction; AddJob quickJob]))
    ++ mJobsQueue (state_after bothBusy (initial 2 [AddJob lFunction; AddJob quickJob])).
Proof.
  split; [vm_compute; reflexivity|].
  apply (jobs_dequeued_in_submission_order 2 [AddJob lFunction; AddJob quickJob]).
  exists bothBusy; vm_compute; reflexivity.
Defined.

(** ** The wait of [grabNextJob] ended by [mTerminate] *)

Lemma busy_increment_exact (n : nat) (st : State) (i : nat) (w : Worker) :
  Z.of_nat n <= INT_MAX -> pool_inv n st ->
  mThreads st !! i = Some w -> running w = 0 ->
  wrap_int (mNumBusyThreads st + 1) = mNumBusyThreads st + 1 /\
  wrap_int (mNumBusyThreads st + 1 - 1) = mNumBusyThreads st /\
  0 <= mNumBusyThreads st.
Proof.
  intros Hn [Hlen Hbusy] Hi Hw.
  pose proof (count_running_range (mThreads st)) as Hr.
  pose proof (count_running_range (<[i := WRun None []]> (mThreads st))) as Hr'.
  rewrite (count_running_insert _ i w _ Hi), length_insert in Hr'.
  simpl in Hr'. unfold INT_MAX in Hn.
  rewrite !wrap_int_id by (unfold INT_MIN, INT_MAX; lia). lia.
Qed.

(** C10. A worker whose wait in [grabNextJob] ends with [mTerminate] set
    leaves the queue as it is and gets the stand-in job, but the busy count
    has been incremented all the same, and is decremented by the worker's
    next step; so the count can be positive during shutdown although no
    submitted job is running ([wokenByShutdown]). *)
Theorem terminate_branch_keeps_queue_counts_busy
    (n : nat) (calls : list Call) (st : State) (i : nat) :
  Z.of_nat n <= INT_MAX ->
  reachable (initial n calls) st ->
  mThreads st !! i = Some WGrab ->
  mTerminate st = true ->
  (exists st1 st2,
      threadExecLoop i st = Next st1 /\
      mJobsQueue st1 = mJobsQueue st /\
      hDequeued st1 = hDequeued st /\
      mThreads st1 !! i = Some (WRun None []) /\
      getNumBusyThreads st1 = getNumBusyThreads st + 1 /\
      0 < getNumBusyThreads st1 /\
      threadExecLoop i st1 = Next st2 /\
      mThreads st2 !! i = Some WLoop /\
      getNumBusyThreads st2 = getNumBusyThreads st /\
      mJobsQueue st2 = mJobsQueue st /\
      hCompleted st2 = hCompleted st) /\
  (exists st3,
      reachable (initial 1 [AddJob lFunction; Destroy]) st3 /\
      mTerminate st3 = true /\
      0 < getNumBusyThreads st3 /\
      forallb (fun w => negb (runs_submitted_job w)) (mThreads st3) = true /\
      mJobsQueue st3 = [Direct lFunction]).
Proof.
  intros Hn Hreach Hi Ht. split.
  - pose proof (pool_inv_reachable n calls st Hn Hreach) as Hinv.
    destruct (busy_increment_exact n st i WGrab Hn Hinv Hi eq_refl)
      as (Hinc & Hdec & Hpos).
    assert (Hlt : (i < length (mThreads st))%nat) by (eapply lookup_lt_Some; eauto).
    eexists. eexists.
    split.
    { unfold threadExecLoop, grabNextJob, jobAvailable. rewrite Hi. simpl.
      rewrite Ht, orb_true_r. simpl. reflexivity. }
    unfold threadExecLoop, getNumBusyThreads. simpl.
    rewrite list_lookup_insert_eq by exact Hlt. simpl.
    rewrite Hinc.
    do 5 (split; [first [reflexivity | lia]|]).
    split; [reflexivity|]. simpl. rewrite ?Hinc, Hdec.
    repeat split.
    apply list_lookup_insert_eq. rewrite length_insert. exact Hlt.
  - exists (state_after ([LClient] ++ wokenByShutdown)
                        (initial 1 [AddJob lFunction; Destroy])).
    split; [exists ([LClient] ++ wokenByShutdown)|];
      vm_compute; repeat split; reflexivity.
Qed.

Lemma terminate_branch_keeps_queue_counts_busy_witness :
  exists st1,
    threadExecLoop 0 (state_after [LWorker 0; LClient] (initial 1 [Destroy]))
      = Next st1 /\
    getNumBusyThreads st1 = 1.
Proof.
  destruct (terminate_branch_keeps_queue_counts_busy 1 [Destroy]
              (state_after [LWorker 0; LClient] (initial 1 [Destroy])) 0%nat)
    as [(st1 & st2 & H1 & _ & _ & _ & H5 & _) _];
    [ unfold INT_MAX; lia
    | exists [LWorker 0; LClient]; vm_compute; reflexivity
    | reflexivity
    | reflexivity
    | exists st1; split; [exact H1 | exact H5] ].
Defined.

(** ** Shutdown *)

Lemma terminate_monotone_step (l : Label) (st st' : State) :
  step l st = Next st' -> mTerminate st = true -> mTerminate st' = true.
Proof.
  intros H Ht. step_cases H; simpl in *; perform_frame;
    first [assumption | reflexivity | congruence].
Qed.

Lemma terminate_monotone (st st' : State) :
  reachable st st' -> mTerminate st = true -> mTerminate st' = true.
Proof.
  intros Hreach Ht. revert st' Hreach.
  apply (reachable_invariant (fun s => mTerminate s = true)).
  - exact Ht.
  - intros l s s' IH H. exact (terminate_monotone_step l s s' H IH).
Qed.

Lemma terminate_set_by_destructor (l : Label) (st st' : State) :
  step l st = Next st' -> mTerminate st = false -> mTerminate st' = true ->
  l = LClient /\ client st = CSetTerminate :: client st'.
Proof.
  intros H Hf Ht.
  step_cases H; simpl in *; perform_frame; try congruence.
  split; reflexivity.
Qed.

Lemma no_dequeue_after_terminate (l : Label) (st st' : State) :
  step l st = Next st' -> mTerminate st = true ->
  hDequeued st' = hDequeued st /\
  exists new, mJobsQueue st' = mJobsQueue st ++ new.
Proof.
  intros H Ht.
  step_cases H; simpl in *; perform_frame;
    try (rewrite Ht in *; simpl in *; congruence);
    (split; [reflexivity|]);
    first [ exists []; rewrite app_nil_r; reflexivity
          | eexists; reflexivity ].
Qed.

Lemma forallb_exited_lookup (ws : list Worker) :
  forallb exited ws = true <-> forall i w, ws !! i = Some w -> w = WExit.
Proof.
  induction ws as [|x ws IH]; simpl.
  - split; [intros _ i w H; discriminate H | reflexivity].
  - rewrite andb_true_iff, IH. split.
    + intros [Hx Hall] [|i] w H; simpl in H.
      * injection H as <-. destruct x; try discriminate Hx. reflexivity.
      * exact (Hall i w H).
    + intros H. split.
      * rewrite (H 0%nat x eq_refl). reflexivity.
      * intros i w Hi. exact (H (S i) w Hi).
Qed.

Lemma count_running_exited (ws : list Worker) :
  forallb exited ws = true -> count_running ws = 0.
Proof.
  induction ws as [|x ws IH]; simpl; [reflexivity|].
  rewrite andb_true_iff. intros [Hx Hall].
  rewrite (IH Hall). destruct x; try discriminate Hx. reflexivity.
Qed.

(** C9. The destructor does not wake every waiting worker.  On a pool of
    one worker that is destroyed right away, the worker finds the predicate
    of its wait false, the owner then stores [mTerminate] and calls
    [notify_all], which finds no thread blocked, and the worker blocks
    after that: the owner is left in [join] and the worker in [wait], and
    no statement of the program can run any more; only a spurious wake-up
    could end the wait.  The same happens after a job has been submitted,
    run and waited for with [waitForCompletion].  When the worker is
    already blocked as the destructor starts, it is woken, leaves its loop
    and is joined. *)
Theorem destructor_misses_worker_about_to_wait :
  (exists st,
     Fine.run Fine.lostWakeup (Fine.initial 1 Fine.destroy) = Fine.Next st /\
     Fine.mTerminate st = true /\
     Fine.mThreads st = [Fine.Asleep] /\
     Fine.owner st = [Fine.CJoin] /\
     (forall l, Fine.step l st <> Fine.Blocked -> l = Fine.LSpurious 0)) /\
  (exists st,
     Fine.run Fine.lostWakeupAfterWait
       (Fine.initial 1 (Fine.CPush lFunction :: Fine.CWait :: Fine.destroy))
     = Fine.Next st /\
     Fine.lCounter st = 1 /\
     Fine.mJobsQueue st = [] /\
     Fine.mTerminate st = true /\
     Fine.mThreads st = [Fine.Asleep] /\
     Fine.owner st = [Fine.CJoin] /\
     (forall l, Fine.step l st <> Fine.Blocked -> l = Fine.LSpurious 0)) /\
  (exists st,
     Fine.run Fine.orderlyShutdown (Fine.initial 1 Fine.destroy) = Fine.Next st /\
     Fine.mThreads st = [Fine.Exited] /\
     Fine.owner st = []).
Proof.
  split; [|split].
  - eexists. split; [vm_compute; reflexivity|].
    repeat split.
    intros [pick|[|i]|[|i]] H; first [reflexivity | exfalso; apply H; reflexivity].
  - eexists. split; [vm_compute; reflexivity|].
    repeat split.
    intros [pick|[|i]|[|i]] H; first [reflexivity | exfalso; apply H; reflexivity].
  - eexists. split; [vm_compute; reflexivity|].
    split; reflexivity.
Qed.

(** ** [waitForCompletion] of the pool *)

(** X1. In [src/include/fbu/thread_pool.hpp] the wait goes on while the queue
    is not empty or a worker is busy, and ends only when both are over. *)
Lemma waitForCompletion_returns_iff_idle
    (n : nat) (calls : list Call) (st : State) (k : list Cmd) :
  Z.of_nat n <= INT_MAX ->
  reachable (initial n calls) st ->
  client st = CWait :: k ->
  (clientStep st = Blocked <->
   mJobsQueue st <> [] \/ 0 < getNumBusyThreads st) /\
  (clientStep st = Next (set_client k st) <->
   mJobsQueue st = [] /\ getNumBusyThreads st = 0).
Proof.
  intros Hn Hreach Hc.
  destruct (pool_inv_reachable n calls st Hn Hreach) as [_ Hbusy].
  pose proof (count_running_range (mThreads st)) as Hr.
  unfold clientStep, waitForCompletion_waits, getNumBusyThreads.
  rewrite Hc. rewrite Hbusy in *.
  destruct (mJobsQueue st) as [|pj q]; simpl.
  - destruct (Z.ltb_spec 0 (count_running (mThreads st)));
      intuition (try congruence; try lia).
  - intuition congruence.
Qed.

(** C1. In [src/cpp/thread_pool.hpp] the loop test is a conjunction: with
    the one submitted job taken from the queue and still running (queue
    empty, busy count 1, counter not yet incremented) [waitForCompletion]
    returns, where the test of [src/include/fbu/thread_pool.hpp] keeps the
    caller blocked in the same state. *)
Theorem legacy_waitForCompletion_returns_while_job_runs :
  exists st,
    Legacy.run waitWhileRunning (initial 1 (submit_then_wait [lFunction]))
      = Next st /\
    client st = [] /\
    mJobsQueue st = [] /\
    getNumBusyThreads st = 1 /\
    mThreads st = [WRun (Some (Direct lFunction)) (job_actions (Direct lFunction))] /\
    lCounter st = 0 /\
    hCompleted st = [] /\
    run waitWhileRunning (initial 1 (submit_then_wait [lFunction])) = Blocked.
Proof.
  eexists. split; [vm_compute; reflexivity|].
  vm_compute. repeat split; reflexivity.
Qed.

(** ** The job counter *)

Lemma paired_from_run (ops : list JobCounter.Op) (c : Z) :
  0 <= c ->
  c + sum_map JobCounter.is_increment ops <= INT_MAX ->
  JobCounter.paired_from (Z.to_nat c) ops = true ->
  JobCounter.run ops c
  = Some (c + sum_map JobCounter.is_increment ops
            - sum_map JobCounter.is_decrement ops) /\
  0 <= c + sum_map JobCounter.is_increment ops
         - sum_map JobCounter.is_decrement ops.
Proof.
  revert c. induction ops as [|[|] ops IH]; intros c Hc Hmax Hp; simpl in *.
  - split; [f_equal|]; lia.
  - assert (Hs : forall l, 0 <= sum_map JobCounter.is_increment l).
    { induction l as [|[|] l IHl]; simpl; lia. }
    pose proof (Hs ops).
    unfold JobCounter.increment.
    rewrite wrap_int_id by (unfold INT_MIN, INT_MAX in *; lia).
    destruct (IH (c + 1)) as [Hrun Hpos]; [lia | lia | |].
    + replace (Z.to_nat (c + 1)) with (S (Z.to_nat c)) by lia. exact Hp.
    + rewrite Hrun. split; [f_equal|]; lia.
  - destruct (Z.to_nat c) as [|o] eqn:Eo; [discriminate Hp|].
    assert (Hc1 : 0 < c) by lia.
    unfold JobCounter.decrement.
    destruct (Z.ltb_spec 0 c); [|lia].
    assert (Hs : forall l, 0 <= sum_map JobCounter.is_increment l).
    { induction l as [|[|] l IHl]; simpl; lia. }
    pose proof (Hs ops).
    rewrite wrap_int_id by (unfold INT_MIN, INT_MAX in *; lia).
    destruct (IH (c - 1)) as [Hrun Hpos]; [lia | lia | |].
    + replace (Z.to_nat (c - 1)) with o by lia. exact Hp.
    + rewrite Hrun. split; [f_equal|]; lia.
Qed.

Lemma paired_from_prefix (pre post : list JobCounter.Op) (open : nat) :
  JobCounter.paired_from open (pre ++ post) = true ->
  JobCounter.paired_from open pre = true.
Proof.
  revert open. induction pre as [|[|] pre IH]; intros open H; simpl in *.
  - reflexivity.
  - apply IH. exact H.
  - destruct open as [|o]; [discriminate H | apply IH; exact H].
Qed.

Lemma sum_map_app {A : Type} (f : A -> Z) (l1 l2 : list A) :
  sum_map f (l1 ++ l2) = sum_map f l1 + sum_map f l2.
Proof. induction l1 as [|x l1 IH]; simpl; [reflexivity | rewrite IH; lia]. Qed.

Lemma sum_map_nonneg {A : Type} (f : A -> Z) (l : list A) :
  (forall x, 0 <= f x) -> 0 <= sum_map f l.
Proof.
  intros Hf. induction l as [|x l IH]; simpl; [lia | pose proof (Hf x); lia].
Qed.

Lemma run_app_JobCounter (pre post : list JobCounter.Op) (c : Z) :
  JobCounter.run (pre ++ post) c
  = match JobCounter.run pre c with
    | Some c' => JobCounter.run post c'
    | None => None
    end.
Proof.
  revert c. induction pre as [|[|] pre IH]; intros c; simpl.
  - reflexivity.
  - apply IH.
  - destruct (JobCounter.decrement c); [apply IH | reflexivity].
Qed.

Lemma wrap_int_wrap_add (a b : Z) : wrap_int (wrap_int a + b) = wrap_int (a + b).
Proof.
  unfold wrap_int, INT_MIN, UINT_MOD.
  replace ((a - -2147483648) mod 4294967296 + -2147483648 + b - -2147483648)
    with ((a - -2147483648) mod 4294967296 + b) by lia.
  replace (a + b - -2147483648) with ((a - -2147483648) + b) by lia.
  rewrite Zplus_mod_idemp_l. reflexivity.
Qed.

Lemma wrap_int_wrap_sub (a b : Z) : wrap_int (wrap_int a - b) = wrap_int (a - b).
Proof. unfold Z.sub. apply wrap_int_wrap_add. Qed.

Lemma paired_within_run (ops : list JobCounter.Op) (c : Z) :
  0 <= c <= INT_MAX ->
  JobCounter.paired_from (Z.to_nat c) ops = true ->
  JobCounter.within_int_from c ops = true ->
  JobCounter.run ops c
  = Some (c + sum_map JobCounter.is_increment ops
            - sum_map JobCounter.is_decrement ops) /\
  0 <= c + sum_map JobCounter.is_increment ops
         - sum_map JobCounter.is_decrement ops <= INT_MAX.
Proof.
  revert c. induction ops as [|[|] ops IH]; intros c Hc Hp Hw; simpl in *.
  - split; [f_equal|]; lia.
  - apply andb_true_iff in Hw. destruct Hw as [Hle Hw].
    apply Z.leb_le in Hle.
    unfold JobCounter.increment.
    rewrite wrap_int_id by (unfold INT_MIN, INT_MAX in *; lia).
    destruct (IH (c + 1)) as [Hrun Hpos]; [lia | | exact Hw |].
    + replace (Z.to_nat (c + 1)) with (S (Z.to_nat c)) by lia. exact Hp.
    + rewrite Hrun. split; [f_equal|]; lia.
  - destruct (Z.to_nat c) as [|o] eqn:Eo; [discriminate Hp|].
    assert (Hc1 : 0 < c) by lia.
    unfold JobCounter.decrement.
    destruct (Z.ltb_spec 0 c); [|lia].
    rewrite wrap_int_id by (unfold INT_MIN, INT_MAX in *; lia).
    destruct (IH (c - 1)) as [Hrun Hpos]; [lia | | exact Hw |].
    + replace (Z.to_nat (c - 1)) with o by lia. exact Hp.
    + rewrite Hrun. split; [f_equal|]; lia.
Qed.

Lemma within_int_from_prefix (pre post : list JobCounter.Op) (c : Z) :
  JobCounter.within_int_from c (pre ++ post) = true ->
  JobCounter.within_int_from c pre = true.
Proof.
  revert c. induction pre as [|[|] pre IH]; intros c H; simpl in *.
  - reflexivity.
  - apply andb_true_iff in H. destruct H as [H1 H2].
    rewrite H1. simpl. apply IH. exact H2.
  - apply IH. exact H.
Qed.

(** Runs of one call repeated: [n] increments add [n] modulo 2^32, and
    they are followed by as many decrements as one likes to pair. *)
Lemma run_increments (n : nat) (rest : list JobCounter.Op) (c : Z) :
  JobCounter.run (repeat JobCounter.Increment n ++ rest) c
  = JobCounter.run rest (wrap_int (wrap_int c + Z.of_nat n)) \/
  n = 0%nat.
Proof.
  destruct n as [|n]; [right; reflexivity|]. left.
  revert c. induction n as [|n IH]; intros c.
  - simpl. unfold JobCounter.increment.
    rewrite wrap_int_wrap_add. reflexivity.
  - change (repeat JobCounter.Increment (S (S n)) ++ rest)
      with (JobCounter.Increment :: (repeat JobCounter.Increment (S n) ++ rest)).
    cbn [JobCounter.run]. rewrite IH. unfold JobCounter.increment.
    rewrite !wrap_int_wrap_add. f_equal. f_equal. lia.
Qed.

Lemma paired_increments (n k : nat) (rest : list JobCounter.Op) :
  JobCounter.paired_from k (repeat JobCounter.Increment n ++ rest)
  = JobCounter.paired_from (n + k) rest.
Proof.
  revert k. induction n as [|n IH]; intros k; [reflexivity|].
  cbn [repeat app JobCounter.paired_from]. rewrite IH. f_equal. lia.
Qed.

Lemma paired_decrements (n k : nat) :
  (n <= k)%nat ->
  JobCounter.paired_from k (repeat JobCounter.Decrement n) = true.
Proof.
  revert k. induction n as [|n IH]; intros k Hk; [reflexivity|].
  destruct k as [|k]; [lia|]. cbn [repeat JobCounter.paired_from].
  apply IH. lia.
Qed.

Lemma sum_increments (n : nat) :
  sum_map JobCounter.is_increment (repeat JobCounter.Increment n) = Z.of_nat n /\
  sum_map JobCounter.is_decrement (repeat JobCounter.Increment n) = 0.
Proof.
  induction n as [|n [IH1 IH2]]; [split; reflexivity|].
  cbn [repeat sum_map JobCounter.is_increment JobCounter.is_decrement].
  rewrite IH1, IH2. split; lia.
Qed.

Lemma sum_decrements (n : nat) :
  sum_map JobCounter.is_increment (repeat JobCounter.Decrement n) = 0 /\
  sum_map JobCounter.is_decrement (repeat JobCounter.Decrement n) = Z.of_nat n.
Proof.
  induction n as [|n [IH1 IH2]]; [split; reflexivity|].
  cbn [repeat sum_map JobCounter.is_increment JobCounter.is_decrement].
  rewrite IH1, IH2. split; lia.
Qed.

Lemma two_pow_31_value : Z.of_nat two_pow_31 = 2147483648.
Proof. unfold two_pow_31. apply Z2Nat.id. lia. Qed.

Lemma two_pow_31_positive : exists m, two_pow_31 = S m.
Proof.
  pose proof two_pow_31_value as H.
  destruct two_pow_31 as [|m]; [simpl in H; lia | exists m; reflexivity].
Qed.

(** After [INT_MAX + 1] increments the count is [INT_MIN]. *)
Lemma run_two_pow_31_increments (rest : list JobCounter.Op) :
  JobCounter.run (repeat JobCounter.Increment two_pow_31 ++ rest) 0
  = JobCounter.run rest INT_MIN.
Proof.
  destruct (run_increments two_pow_31 rest 0) as [H|H].
  - rewrite H, two_pow_31_value. reflexivity.
  - destruct two_pow_31_positive as [m Hm]. congruence.
Qed.

(** C7. Whatever way the calls of the threads interleave, as long as each
    [decrement] comes after the [increment] it is paired with and no
    [increment] is called at count [INT_MAX]: after [C] increments and [C]
    decrements, for every [C >= 0], the count is zero again and
    [waitForCompletion] returns; [decrement] undoes [increment] and
    [increment] undoes [decrement]. *)
Theorem JobCounter_balanced_calls_reach_zero (C : Z) (ops : list JobCounter.Op) :
  0 <= C ->
  sum_map JobCounter.is_increment ops = C ->
  sum_map JobCounter.is_decrement ops = C ->
  JobCounter.paired ops = true ->
  JobCounter.within_int ops = true ->
  (exists c, JobCounter.run ops 0 = Some c /\ c = 0 /\
             JobCounter.waitForCompletion_returns c = true) /\
  (forall c, 0 <= c < INT_MAX ->
             JobCounter.decrement (JobCounter.increment c) = Some c) /\
  (forall c, 0 < c <= INT_MAX ->
             option_map JobCounter.increment (JobCounter.decrement c) = Some c).
Proof.
  intros HC Hinc Hdec Hp Hw. split; [|split].
  - destruct (paired_within_run ops 0) as [Hrun _];
      [unfold INT_MAX; lia | exact Hp | exact Hw |].
    exists 0. rewrite Hrun. repeat split. f_equal. lia.
  - intros c Hc. unfold JobCounter.decrement, JobCounter.increment.
    rewrite wrap_int_id by (unfold INT_MIN, INT_MAX in *; lia).
    destruct (Z.ltb_spec 0 (c + 1)); [|lia].
    rewrite wrap_int_id by (unfold INT_MIN, INT_MAX in *; lia).
    f_equal. lia.
  - intros c Hc. unfold JobCounter.decrement, JobCounter.increment.
    destruct (Z.ltb_spec 0 c); [|lia]. simpl.
    rewrite (wrap_int_id (c - 1)) by (unfold INT_MIN, INT_MAX in *; lia).
    rewrite wrap_int_id by (unfold INT_MIN, INT_MAX in *; lia).
    f_equal. lia.
Qed.

Lemma JobCounter_balanced_calls_reach_zero_witness :
  exists c,
    JobCounter.run
      [JobCounter.Increment; JobCounter.Increment; JobCounter.Decrement;
       JobCounter.Increment; JobCounter.Decrement; JobCounter.Decrement] 0
    = Some c /\ c = 0 /\ JobCounter.waitForCompletion_returns c = true.
Proof.
  apply (JobCounter_balanced_calls_reach_zero 3);
    [ lia | reflexivity | reflexivity | reflexivity | reflexivity ].
Defined.

(** C7, as stated, fails: [INT_MAX + 1] increments followed by as many
    decrements are paired, but the count has wrapped to [INT_MIN] and the
    first [decrement] fails its assertion; the count never returns to
    zero. *)
Lemma JobCounter_balanced_calls_overflow :
  sum_map JobCounter.is_increment
    (repeat JobCounter.Increment two_pow_31
     ++ repeat JobCounter.Decrement two_pow_31) = 2147483648 /\
  sum_map JobCounter.is_decrement
    (repeat JobCounter.Increment two_pow_31
     ++ repeat JobCounter.Decrement two_pow_31) = 2147483648 /\
  JobCounter.paired
    (repeat JobCounter.Increment two_pow_31
     ++ repeat JobCounter.Decrement two_pow_31) = true /\
  JobCounter.run
    (repeat JobCounter.Increment two_pow_31
     ++ repeat JobCounter.Decrement two_pow_31) 0 = None.
Proof.
  destruct (sum_increments two_pow_31) as [Hi1 Hi2].
  destruct (sum_decrements two_pow_31) as [Hd1 Hd2].
  rewrite !sum_map_app, Hi1, Hi2, Hd1, Hd2, two_pow_31_value.
  split; [reflexivity|]. split; [reflexivity|]. split.
  - unfold JobCounter.paired. rewrite paired_increments.
    apply paired_decrements. lia.
  - rewrite run_two_pow_31_increments.
    destruct two_pow_31_positive as [m ->]. reflexivity.
Qed.

(** C8. When every [decrement] comes after an [increment] of its own and no
    [increment] is called at count [INT_MAX], the assertion of [decrement]
    holds at every call and the count is never negative, whatever prefix of
    the calls has been run; a [decrement] at count zero fails the
    assertion, and nothing runs after it. *)
Theorem JobCounter_paired_calls_never_assert (ops : list JobCounter.Op) :
  JobCounter.paired ops = true ->
  JobCounter.within_int ops = true ->
  (forall pre post, ops = pre ++ post ->
     exists c, JobCounter.run pre 0 = Some c /\ 0 <= c) /\
  JobCounter.decrement 0 = None /\
  (forall pre post,
     JobCounter.run pre 0 = Some 0 ->
     JobCounter.run (pre ++ JobCounter.Decrement :: post) 0 = None).
Proof.
  intros Hp Hw. split; [|split].
  - intros pre post ->.
    destruct (paired_within_run pre 0) as [Hrun Hpos].
    + unfold INT_MAX. lia.
    + exact (paired_from_prefix pre post 0 Hp).
    + exact (within_int_from_prefix pre post 0 Hw).
    + eexists. split; [exact Hrun | lia].
  - reflexivity.
  - intros pre post Hrun. rewrite run_app_JobCounter, Hrun. reflexivity.
Qed.

Lemma JobCounter_paired_calls_never_assert_witness :
  (exists c,
     JobCounter.run [JobCounter.Increment; JobCounter.Increment;
                     JobCounter.Decrement] 0 = Some c /\ 0 <= c) /\
  JobCounter.run ([JobCounter.Increment; JobCounter.Decrement]
                  ++ JobCounter.Decrement :: [JobCounter.Increment]) 0 = None.
Proof.
  destruct (JobCounter_paired_calls_never_assert
              [JobCounter.Increment; JobCounter.Increment;
               JobCounter.Decrement; JobCounter.Decrement])
    as (H1 & _ & H3); [reflexivity | reflexivity |].
  split.
  - apply (H1 [JobCounter.Increment; JobCounter.Increment; JobCounter.Decrement]
              [JobCounter.Decrement]). reflexivity.
  - apply (H3 [JobCounter.Increment; JobCounter.Decrement]). reflexivity.
Defined.

(** C8, as stated, fails: [INT_MAX + 1] increments and one decrement are
    paired, yet after the increments the count is [INT_MIN], below zero,
    and the decrement fails its assertion. *)
Lemma JobCounter_paired_calls_overflow :
  JobCounter.paired
    (repeat JobCounter.Increment two_pow_31 ++ [JobCounter.Decrement]) = true /\
  JobCounter.run (repeat JobCounter.Increment two_pow_31) 0 = Some INT_MIN /\
  INT_MIN < 0 /\
  JobCounter.run
    (repeat JobCounter.Increment two_pow_31 ++ [JobCounter.Decrement]) 0 = None.
Proof.
  split; [|split; [|split]].
  - unfold JobCounter.paired. rewrite paired_increments.
    destruct two_pow_31_positive as [m ->]. reflexivity.
  - rewrite <- (app_nil_r (repeat JobCounter.Increment two_pow_31)).
    apply run_two_pow_31_increments.
  - reflexivity.
  - rewrite run_two_pow_31_increments. reflexivity.
Qed.

(** ** Every submitted job has run when [waitForCompletion] returns *)

Lemma sum_map_insert {A : Type} (f : A -> Z) (l : list A) (i : nat) (x y : A) :
  l !! i = Some x -> sum_map f (<[i := y]> l) = sum_map f l - f x + f y.
Proof.
  revert i. induction l as [|z l IH]; intros [|i] H; simpl in *; try discriminate.
  - injection H as ->. lia.
  - rewrite (IH i H). lia.
Qed.

Lemma job_actions_incrs (pj : PoolJob) :
  sum_map action_incr (job_actions pj) = job_incrs pj.
Proof.
  assert (Hm : forall body, sum_map action_incr (map AUser body)
                            = sum_map user_incr body).
  { induction body as [|[|] body IH]; simpl; [reflexivity | exact IH | lia]. }
  destruct pj as [j|e j]; unfold job_incrs; simpl.
  - apply Hm.
  - rewrite sum_map_app, Hm. simpl. lia.
Qed.

(** Each [++lCounter] that is performed is one that was still to come. *)
Lemma counter_plus_pending_step (l : Label) (st st' : State) :
  step l st = Next st' ->
  lCounter st' + pending_incrs st' = lCounter st + pending_incrs st.
Proof.
  intros H. unfold pending_incrs.
  step_cases H; simpl in *;
    repeat match goal with
           | E : client _ = _ |- _ => rewrite E
           | E : mJobsQueue _ = _ |- _ => rewrite E
           end;
    simpl;
    try (erewrite sum_map_insert by eassumption; simpl);
    rewrite ?sum_map_app, ?job_actions_incrs; simpl; try lia.
  destruct a as [[|]|e]; simpl;
    (erewrite sum_map_insert by eassumption); simpl; lia.
Qed.

Lemma counter_plus_pending (st0 st : State) :
  reachable st0 st ->
  lCounter st + pending_incrs st = lCounter st0 + pending_incrs st0.
Proof.
  apply (reachable_invariant
           (fun s => lCounter s + pending_incrs s
                     = lCounter st0 + pending_incrs st0)).
  - reflexivity.
  - intros l s s' IH H. rewrite (counter_plus_pending_step l s s' H). exact IH.
Qed.

Lemma compile_submit_then_wait (js : list UserJob) :
  compile (submit_then_wait js)
  = map (fun j => CPush (Direct j)) js ++ [CWait].
Proof.
  unfold submit_then_wait. induction js as [|j js IH]; simpl;
    [reflexivity | rewrite IH; reflexivity].
Qed.

Lemma pending_submit_then_wait (n : nat) (js : list UserJob) :
  Forall (fun j => sum_map user_incr (job_body j) = 1) js ->
  pending_incrs (initial n (submit_then_wait js)) = Z.of_nat (length js).
Proof.
  intros Hjs. unfold pending_incrs. simpl.
  rewrite compile_submit_then_wait, sum_map_app. simpl.
  assert (Hw : sum_map worker_incrs (replicate n WLoop) = 0).
  { induction n as [|n IH]; simpl; [reflexivity | exact IH]. }
  rewrite Hw. clear Hw.
  induction Hjs as [|j js Hj _ IH]; simpl length; simpl sum_map.
  - reflexivity.
  - unfold job_incrs at 1. simpl. rewrite Hj. lia.
Qed.

Lemma idle_workers_pend_nothing (ws : list Worker) :
  count_running ws = 0 -> sum_map worker_incrs ws = 0.
Proof.
  induction ws as [|w ws IH]; simpl; [reflexivity|].
  pose proof (running_range w) as Hw.
  pose proof (count_running_range ws) as Hws.
  intros Hz. rewrite IH by lia. destruct w; simpl in *; lia.
Qed.

Lemma counting_inv_step (n : nat) (l : Label) (st st' : State) :
  pool_inv n st -> counting_inv st -> step l st = Next st' -> counting_inv st'.
Proof.
  intros [Hlen Hbusy] [Halive Hclient Hidle] H.
  pose proof (count_running_range (mThreads st)) as Hr.
  destruct l as [|i]; simpl in H.
  - unfold clientStep in H.
    destruct Hclient as [Hc | [js Hc]]; rewrite Hc in H; [discriminate H|].
    destruct js as [|j js]; simpl in H.
    + unfold waitForCompletion_waits in H.
      destruct (mJobsQueue st) as [|pj q] eqn:Hq; simpl in H; [|discriminate H].
      destruct (Z.ltb_spec 0 (mNumBusyThreads st)); simpl in H; [discriminate H|].
      injection H as <-. split; simpl.
      * exact Halive.
      * left. reflexivity.
      * intros _. split; [exact Hq | lia].
    + injection H as <-. split; simpl.
      * exact Halive.
      * right. exists js. reflexivity.
      * intros Hnil. destruct js; discriminate Hnil.
  - destruct (client st) as [|c k] eqn:Hc.
    + destruct (Hidle eq_refl) as [Hq Hb].
      unfold threadExecLoop, grabNextJob, jobAvailable in H.
      rewrite Hq, Halive in H. simpl in H.
      destruct (mThreads st !! i) as [[| |origin rest|]|] eqn:Hi;
        try discriminate H.
      * injection H as <-. split; simpl; rewrite ?Hc; auto.
      * exfalso.
        pose proof (count_running_insert _ i _ WLoop Hi) as Hins.
        pose proof (count_running_range (<[i := WLoop]> (mThreads st))).
        simpl in Hins. lia.
    + assert (Hc' : client st' = client st).
      { step_cases H; simpl in *; perform_frame; first [reflexivity | congruence]. }
      assert (Ht' : mTerminate st' = mTerminate st).
      { step_cases H; simpl in *; perform_frame; first [reflexivity | congruence]. }
      split.
      * rewrite Ht'. exact Halive.
      * rewrite Hc', Hc. exact Hclient.
      * rewrite Hc', Hc. intros Hnil. discriminate Hnil.
Qed.

Lemma counting_inv_reachable (n : nat) (js : list UserJob) (st : State) :
  Z.of_nat n <= INT_MAX ->
  reachable (initial n (submit_then_wait js)) st ->
  pool_inv n st /\ counting_inv st.
Proof.
  intros Hn.
  apply (reachable_invariant (fun s => pool_inv n s /\ counting_inv s)).
  - split; [apply pool_inv_initial|]. split; simpl.
    + reflexivity.
    + right. exists js. apply compile_submit_then_wait.
    + rewrite compile_submit_then_wait. intros H. destruct js; discriminate H.
  - intros l s s' [Hp Hc] H. split.
    + exact (pool_inv_step n l s s' Hn Hp H).
    + exact (counting_inv_step n l s s' Hp Hc H).
Qed.

(** A worker runs the rest of its job without touching the pool. *)
Lemma actions_run (i : nat) (origin : option PoolJob) (rest : list Action)
    (st : State) :
  mThreads st !! i = Some (WRun origin rest) ->
  exists st', run (replicate (length rest) (LWorker i)) st = Next st' /\
              mThreads st' = <[i := WRun origin []]> (mThreads st) /\
              mTerminate st' = mTerminate st /\
              mNumBusyThreads st' = mNumBusyThreads st /\
              mJobsQueue st' = mJobsQueue st /\
              client st' = client st.
Proof.
  revert st. induction rest as [|a rest IH]; intros st Hi.
  - exists st. split; [reflexivity|].
    rewrite (list_insert_id _ _ _ Hi). repeat split.
  - assert (Hlt : (i < length (mThreads st))%nat) by (eapply lookup_lt_Some; eauto).
    destruct (perform_frame a st) as (F1 & F2 & F3 & F4 & F5 & F6 & F7 & F8).
    destruct (IH (set_thread i (WRun origin rest) (perform a st)))
      as (st' & Hrun & Hth & Ht' & Hb & Hq & Hc).
    { simpl. rewrite F1. apply list_lookup_insert_eq. exact Hlt. }
    exists st'. simpl in *. unfold threadExecLoop at 1. rewrite Hi.
    split; [exact Hrun|].
    rewrite Hth, Ht', Hb, Hq, Hc, F1, F2, F3, F4, F5, list_insert_insert_eq.
    repeat split.
Qed.

(** An idle worker takes the job at the front of the queue, runs it and
    reports back. *)
Lemma serve_job_runs (i : nat) (pj : PoolJob) (q : list PoolJob) (st : State) :
  mThreads st !! i = Some WLoop ->
  mTerminate st = false ->
  mJobsQueue st = pj :: q ->
  mNumBusyThreads st = 0 ->
  exists st', run (serve_job i pj) st = Next st' /\
              mThreads st' = mThreads st /\
              mTerminate st' = false /\
              mNumBusyThreads st' = 0 /\
              mJobsQueue st' = q /\
              client st' = client st.
Proof.
  intros Hi Ht Hq Hb.
  assert (Hlt : (i < length (mThreads st))%nat) by (eapply lookup_lt_Some; eauto).
  set (st2 := mkState (<[i := WRun (Some pj) (job_actions pj)]> (mThreads st))
                      false 1 q (mNumJobs st) (lCounter st) (client st)
                      (hSubmitted st) (hDequeued st ++ [pj]) (hCompleted st)).
  assert (H12 : run [LWorker i; LWorker i] st = Next st2).
  { simpl. unfold threadExecLoop at 1. rewrite Hi, Ht.
    unfold threadExecLoop. simpl.
    rewrite list_lookup_insert_eq by exact Hlt.
    unfold grabNextJob, jobAvailable. simpl. rewrite Hq, Ht, Hb. simpl.
    rewrite list_insert_insert_eq. reflexivity. }
  destruct (actions_run i (Some pj) (job_actions pj) st2)
    as (st3 & Hrun3 & Hth3 & Ht3 & Hb3 & Hq3 & Hc3).
  { simpl. apply list_lookup_insert_eq. exact Hlt. }
  simpl in Hth3, Ht3, Hb3, Hq3, Hc3.
  rewrite list_insert_insert_eq in Hth3.
  exists (jobReturned i (Some pj) st3).
  unfold serve_job.
  rewrite (run_app _ _ _ _ H12), (run_app _ _ _ _ Hrun3).
  simpl. unfold threadExecLoop. rewrite Hth3.
  rewrite list_lookup_insert_eq by exact Hlt.
  split; [reflexivity|]. simpl.
  rewrite ?Hth3, ?Ht3, ?Hb3, ?Hq3, ?Hc3, list_insert_insert_eq.
  rewrite (list_insert_id _ _ _ Hi). repeat split.
Qed.

Lemma serve_jobs_run (i : nat) (pjs : list PoolJob) (st : State) :
  mThreads st !! i = Some WLoop ->
  mTerminate st = false ->
  mJobsQueue st = pjs ->
  mNumBusyThreads st = 0 ->
  exists st', run (serve_jobs i pjs) st = Next st' /\
              mTerminate st' = false /\
              mNumBusyThreads st' = 0 /\
              mJobsQueue st' = [] /\
              client st' = client st.
Proof.
  revert st. induction pjs as [|pj pjs IH]; intros st Hi Ht Hq Hb.
  - exists st. repeat split; assumption.
  - destruct (serve_job_runs i pj pjs st Hi Ht Hq Hb)
      as (st1 & Hrun1 & Hth1 & Ht1 & Hb1 & Hq1 & Hc1).
    destruct (IH st1) as (st2 & Hrun2 & Ht2 & Hb2 & Hq2 & Hc2);
      try assumption; [rewrite Hth1; exact Hi|].
    exists st2.
    change (serve_jobs i (pj :: pjs)) with (serve_job i pj ++ serve_jobs i pjs).
    rewrite (run_app _ _ _ _ Hrun1).
    repeat split; try assumption. congruence.
Qed.

Lemma submissions_run (js : list UserJob) (k : list Cmd) (st : State) :
  client st = map (fun j => CPush (Direct j)) js ++ k ->
  exists st', run (replicate (length js) LClient) st = Next st' /\
              client st' = k /\
              mJobsQueue st' = mJobsQueue st ++ map Direct js /\
              mThreads st' = mThreads st /\
              mTerminate st' = mTerminate st /\
              mNumBusyThreads st' = mNumBusyThreads st.
Proof.
  revert st. induction js as [|j js IH]; intros st Hc.
  - exists st. rewrite app_nil_r. repeat split. exact Hc.
  - destruct (IH (set_client (map (fun j => CPush (Direct j)) js ++ k)
                    (addJob (Direct j) st)))
      as (st' & Hrun & Hc' & Hq' & Hth' & Ht' & Hb'); [reflexivity|].
    exists st'. simpl in *. unfold clientStep. rewrite Hc.
    split; [exact Hrun|]. rewrite Hq', <- app_assoc.
    repeat split; assumption.
Qed.

(** With at least one worker the counting test can run to its end. *)
Lemma sequential_schedule_returns (n : nat) (js : list UserJob) :
  (1 <= n)%nat ->
  exists st, run (sequential_schedule js) (initial n (submit_then_wait js))
             = Next st /\ client st = [].
Proof.
  intros Hn.
  destruct (submissions_run js [CWait] (initial n (submit_then_wait js)))
    as (st1 & Hrun1 & Hc1 & Hq1 & Hth1 & Ht1 & Hb1).
  { apply compile_submit_then_wait. }
  simpl in Hq1, Hth1, Ht1, Hb1.
  destruct (serve_jobs_run 0 (map Direct js) st1)
    as (st2 & Hrun2 & Ht2 & Hb2 & Hq2 & Hc2); try assumption.
  { rewrite Hth1. destruct n as [|n]; [lia | reflexivity]. }
  exists (set_client [] st2). unfold sequential_schedule.
  rewrite (run_app _ _ _ _ Hrun1), (run_app _ _ _ _ Hrun2).
  simpl. unfold clientStep, waitForCompletion_waits.
  rewrite Hc2, Hc1, Hq2, Hb2. simpl. split; reflexivity.
Qed.

(** The submission history and the submissions still to come make up the
    owner's program. *)
Lemma submitted_step (l : Label) (st st' : State) :
  step l st = Next st' ->
  hSubmitted st' ++ pushes_of (client st')
  = hSubmitted st ++ pushes_of (client st).
Proof.
  intros H.
  step_cases H; simpl in *; perform_frame;
    repeat match goal with
           | E : client _ = _ |- _ => rewrite E
           end;
    simpl; rewrite <- ?app_assoc; reflexivity.
Qed.

Lemma submitted_reachable (st0 st : State) :
  reachable st0 st ->
  hSubmitted st ++ pushes_of (client st)
  = hSubmitted st0 ++ pushes_of (client st0).
Proof.
  apply (reachable_invariant
           (fun s => hSubmitted s ++ pushes_of (client s)
                     = hSubmitted st0 ++ pushes_of (client st0))).
  - reflexivity.
  - intros l s s' IH H. rewrite (submitted_step l s s' H). exact IH.
Qed.

(** A job taken from the queue has returned or is inside a worker. *)
Lemma dequeued_step (pj : PoolJob) (l : Label) (st st' : State) :
  occurrences pj (hDequeued st)
  = occurrences pj (hCompleted st) + sum_map (worker_job pj) (mThreads st) ->
  step l st = Next st' ->
  occurrences pj (hDequeued st')
  = occurrences pj (hCompleted st') + sum_map (worker_job pj) (mThreads st').
Proof.
  unfold occurrences. intros IH H.
  step_cases H; simpl in *; perform_frame; try assumption;
    try (erewrite sum_map_insert by eassumption; simpl);
    rewrite ?sum_map_app; simpl; try lia.
  destruct origin; rewrite ?sum_map_app; simpl; lia.
Qed.

Lemma dequeued_reachable (pj : PoolJob) (n : nat) (calls : list Call)
    (st : State) :
  reachable (initial n calls) st ->
  occurrences pj (hDequeued st)
  = occurrences pj (hCompleted st) + sum_map (worker_job pj) (mThreads st).
Proof.
  apply (reachable_invariant
           (fun s => occurrences pj (hDequeued s)
                     = occurrences pj (hCompleted s)
                       + sum_map (worker_job pj) (mThreads s))).
  - simpl. induction n as [|n IH]; simpl; [reflexivity | exact IH].
  - intros l s s' IH H. exact (dequeued_step pj l s s' IH H).
Qed.

Lemma idle_workers_hold_no_job (pj : PoolJob) (ws : list Worker) :
  count_running ws = 0 -> sum_map (worker_job pj) ws = 0.
Proof.
  induction ws as [|w ws IH]; simpl; [reflexivity|].
  pose proof (running_range w) as Hw.
  pose proof (count_running_range ws) as Hws.
  intros Hz. rewrite IH by lia. destruct w; simpl in *; lia.
Qed.

Lemma pushes_submit_then_wait (js : list UserJob) :
  pushes_of (compile (submit_then_wait js)) = map Direct js.
Proof.
  rewrite compile_submit_then_wait.
  induction js as [|j js IH]; simpl; [reflexivity | rewrite IH; reflexivity].
Qed.

(** C2. Whatever the number [K] of jobs and the number [n >= 1] of workers:
    when [K] jobs that each increment the counter once have been submitted
    and [waitForCompletion] has then returned, the counter is [K], the
    queue is empty, nobody is busy and every submitted job has returned
    exactly as often as it was submitted; and the run can get there. *)
Theorem counter_is_K_when_waitForCompletion_returns
    (n : nat) (js : list UserJob) (st : State) :
  (1 <= n)%nat ->
  Z.of_nat n <= INT_MAX ->
  Forall (fun j => sum_map user_incr (job_body j) = 1) js ->
  reachable (initial n (submit_then_wait js)) st ->
  client st = [] ->
  (lCounter st = Z.of_nat (length js) /\
   mJobsQueue st = [] /\ getNumBusyThreads st = 0 /\
   hSubmitted st = map Direct js /\
   forall pj, occurrences pj (hCompleted st)
              = occurrences pj (map Direct js)) /\
  (exists st', reachable (initial n (submit_then_wait js)) st' /\
               client st' = []).
Proof.
  intros Hn1 Hn Hjs Hreach Hdone. split.
  - destruct (counting_inv_reachable n js st Hn Hreach)
      as [[Hlen Hbusy] [Halive Hclient Hidle]].
    destruct (Hidle Hdone) as [Hq Hb].
    pose proof (counter_plus_pending _ _ Hreach) as Hsum.
    rewrite (pending_submit_then_wait n js Hjs) in Hsum.
    unfold pending_incrs in Hsum. rewrite Hq, Hdone in Hsum.
    rewrite idle_workers_pend_nothing in Hsum by congruence.
    simpl in Hsum. unfold getNumBusyThreads.
    pose proof (submitted_reachable _ _ Hreach) as Hsub.
    rewrite Hdone in Hsub. simpl in Hsub.
    rewrite app_nil_r, pushes_submit_then_wait in Hsub.
    pose proof (fifo_reachable _ _ _ Hreach) as Hfifo.
    rewrite Hq, app_nil_r, Hsub in Hfifo.
    repeat split; [lia | exact Hq | exact Hb | exact Hsub |].
    intros pj. pose proof (dequeued_reachable pj _ _ _ Hreach) as Hdeq.
    rewrite idle_workers_hold_no_job in Hdeq by congruence.
    rewrite <- Hfifo in Hdeq. lia.
  - destruct (sequential_schedule_returns n js Hn1) as (st' & Hrun & Hc).
    exists st'. split; [exists (sequential_schedule js); exact Hrun | exact Hc].
Qed.

Lemma counter_is_K_when_waitForCompletion_returns_witness :
  lCounter (state_after (sequential_schedule [lFunction; quickJob; lFunction])
              (initial 2 (submit_then_wait [lFunction; quickJob; lFunction])))
  = 3.
Proof.
  apply (counter_is_K_when_waitForCompletion_returns 2
           [lFunction; quickJob; lFunction]);
    [ lia
    | unfold INT_MAX; lia
    | repeat constructor
    | exists (sequential_schedule [lFunction; quickJob; lFunction]);
      vm_compute; reflexivity
    | vm_compute; reflexivity ].
Defined.

(** ** Executors sharing a pool *)

Lemma numJobs_set (e e' : ExecutorId) (v : Z) (st : State) :
  numJobs e (set_numJobs e' v st) = if Nat.eqb e e' then v else numJobs e st.
Proof.
  unfold numJobs, set_numJobs. simpl.
  destruct (Nat.eqb_spec e e') as [->|Hne].
  - rewrite lookup_insert_eq. reflexivity.
  - rewrite lookup_insert_ne by congruence. reflexivity.
Qed.

Lemma tracked_by_range (e : ExecutorId) (pj : PoolJob) : 0 <= tracked_by e pj <= 1.
Proof. destruct pj as [j|e' j]; simpl; [lia | destruct (Nat.eqb e e'); lia]. Qed.

Lemma action_done_range (e : ExecutorId) (a : Action) : 0 <= action_done e a <= 1.
Proof. destruct a as [a|e']; simpl; [lia | destruct (Nat.eqb e e'); lia]. Qed.

Lemma worker_tracked_nonneg (e : ExecutorId) (w : Worker) : 0 <= worker_tracked e w.
Proof.
  destruct w; simpl; try lia.
  apply sum_map_nonneg. intros a. apply action_done_range.
Qed.

Lemma midcall_nonneg (e : ExecutorId) (k : list Cmd) : 0 <= midcall e k.
Proof.
  destruct k as [|[pj| | | | |] k]; simpl; try lia. apply tracked_by_range.
Qed.

Lemma job_actions_tracked (e : ExecutorId) (pj : PoolJob) :
  sum_map (action_done e) (job_actions pj) = tracked_by e pj.
Proof.
  assert (Hm : forall body, sum_map (action_done e) (map AUser body) = 0).
  { induction body as [|a body IH]; simpl; [reflexivity | exact IH]. }
  destruct pj as [j|e' j]; simpl.
  - apply Hm.
  - rewrite sum_map_app, Hm. simpl. lia.
Qed.

Lemma midcall_compile (e : ExecutorId) (cs : list Call) :
  midcall e (compile cs) = 0.
Proof. destruct cs as [|[j| |e' j|e'|] cs]; reflexivity. Qed.

Lemma incrs_compile (e : ExecutorId) (cs : list Call) :
  sum_map (cmd_incr_of e) (compile cs) = sum_map (call_of e) cs.
Proof.
  induction cs as [|c cs IH]; simpl; [reflexivity|].
  rewrite sum_map_app, IH. destruct c; simpl; lia.
Qed.

Lemma sum_map_lookup_le {A : Type} (f : A -> Z) (l : list A) (i : nat) (x : A) :
  (forall y, 0 <= f y) -> l !! i = Some x -> f x <= sum_map f l.
Proof.
  intros Hf. revert i. induction l as [|z l IH]; intros [|i] H; simpl in *;
    try discriminate.
  - injection H as ->. pose proof (sum_map_nonneg f l Hf). lia.
  - pose proof (IH i H). pose proof (Hf z). lia.
Qed.

Lemma outstanding_nonneg (e : ExecutorId) (st : State) : 0 <= outstanding e st.
Proof.
  unfold outstanding.
  pose proof (midcall_nonneg e (client st)).
  pose proof (sum_map_nonneg (tracked_by e) (mJobsQueue st)
                (fun pj => proj1 (tracked_by_range e pj))).
  pose proof (sum_map_nonneg (worker_tracked e) (mThreads st)
                (worker_tracked_nonneg e)).
  lia.
Qed.

Lemma executor_inv_initial (e : ExecutorId) (n : nat) (calls : list Call) :
  executor_inv e (sum_map (call_of e) calls) (initial n calls).
Proof.
  assert (Hw : sum_map (worker_tracked e) (replicate n WLoop) = 0).
  { induction n as [|n IH]; simpl; [reflexivity | exact IH]. }
  split; unfold outstanding; simpl; rewrite ?midcall_compile, ?Hw, ?incrs_compile.
  - exists calls. left. reflexivity.
  - reflexivity.
  - lia.
Qed.

Lemma executor_inv_worker_step (e : ExecutorId) (M : Z) (i : nat)
    (st st' : State) :
  M <= INT_MAX ->
  executor_inv e M st -> threadExecLoop i st = Next st' -> executor_inv e M st'.
Proof.
  intros HM [Hwf Hcount Hbound] H.
  pose proof (outstanding_nonneg e st) as Hpos.
  pose proof (sum_map_nonneg (cmd_incr_of e) (client st)) as Hfut.
  unfold outstanding in Hcount, Hbound, Hpos.
  unfold threadExecLoop, grabNextJob, jobAvailable in H.
  destruct (mThreads st !! i) as [[| |origin [|a rest]|]|] eqn:Hi;
    try discriminate H.
  - injection H as <-. split; unfold outstanding, numJobs in *; simpl; try assumption;
      rewrite (sum_map_insert _ _ _ _ _ Hi);
      destruct (mTerminate st); simpl; lia.
  - destruct ((0 <? Z.of_nat (length (mJobsQueue st))) || mTerminate st);
      [|discriminate H].
    simpl in H.
    destruct (mTerminate st); simpl in H.
    + injection H as <-. split; unfold outstanding, numJobs in *; simpl; try assumption;
        rewrite (sum_map_insert _ _ _ _ _ Hi); simpl; lia.
    + destruct (mJobsQueue st) as [|pj q] eqn:Hq; [discriminate H|].
      injection H as <-.
      split; unfold outstanding, numJobs in *; simpl in *; try assumption;
        rewrite (sum_map_insert _ _ _ _ _ Hi); simpl;
        rewrite job_actions_tracked; lia.
  - injection H as <-. split; unfold outstanding, numJobs in *; simpl; try assumption;
      rewrite (sum_map_insert _ _ _ _ _ Hi); simpl; lia.
  - injection H as <-.
    pose proof (sum_map_lookup_le (worker_tracked e) _ i _
                  (worker_tracked_nonneg e) Hi) as Hle.
    pose proof (midcall_nonneg e (client st)) as Hmid.
    pose proof (sum_map_nonneg (tracked_by e) (mJobsQueue st)
                  (fun pj => proj1 (tracked_by_range e pj))) as Hqn.
    pose proof (sum_map_nonneg (action_done e) rest
                  (fun x => proj1 (action_done_range e x))) as Hrest.
    simpl in Hle.
    destruct a as [[|]|e']; simpl in *.
    + split; unfold outstanding, numJobs in *; simpl; try assumption;
        rewrite (sum_map_insert _ _ _ _ _ Hi); simpl; lia.
    + split; unfold outstanding, numJobs in *; simpl; try assumption;
        rewrite (sum_map_insert _ _ _ _ _ Hi); simpl; lia.
    + assert (Hnum : numJobs e (set_numJobs e' (wrap_int (numJobs e' st - 1)) st)
                     = numJobs e st - (if Nat.eqb e e' then 1 else 0)).
      { rewrite numJobs_set. destruct (Nat.eqb_spec e e') as [<-|Hne]; [|lia].
        rewrite Hcount. apply wrap_int_id.
        unfold INT_MIN, INT_MAX in *.
        assert (0 <= sum_map (cmd_incr_of e) (client st)).
        { apply Hfut. intros [| | e0 | | |]; simpl; try lia.
          destruct (Nat.eqb e e0); lia. }
        lia. }
      split; try (simpl; assumption).
      * transitivity (numJobs e (set_numJobs e' (wrap_int (numJobs e' st - 1)) st));
          [reflexivity|].
        rewrite Hnum, Hcount. unfold outstanding. simpl.
        rewrite (sum_map_insert _ _ _ _ _ Hi); simpl. lia.
      * unfold outstanding in *. simpl.
        rewrite (sum_map_insert _ _ _ _ _ Hi); simpl.
        destruct (Nat.eqb e e'); lia.
Qed.

Lemma cmd_incr_of_nonneg (e : ExecutorId) (c : Cmd) : 0 <= cmd_incr_of e c.
Proof. destruct c as [| |e'| | |]; simpl; try lia. destruct (Nat.eqb e e'); lia. Qed.

Lemma executor_inv_client_step (e : ExecutorId) (M : Z) (st st' : State) :
  M <= INT_MAX ->
  executor_inv e M st -> clientStep st = Next st' -> executor_inv e M st'.
Proof.
  intros HM [Hwf Hcount Hbound] H.
  pose proof (outstanding_nonneg e st) as Hpos.
  unfold outstanding in Hcount, Hbound, Hpos.
  unfold clientStep in H.
  destruct Hwf as [cs [Hc | [(e' & j & Hc) | Hc]]]; rewrite Hc in *.
  - pose proof (sum_map_nonneg (cmd_incr_of e) (compile cs)
                  (cmd_incr_of_nonneg e)) as Hfut.
    rewrite midcall_compile in *.
    destruct cs as [|[j| |e' j|e'|] cs]; simpl in H, Hbound, Hfut.
    + discriminate H.
    + injection H as <-.
      split; unfold outstanding, numJobs in *; simpl;
        rewrite ?midcall_compile, ?sum_map_app; simpl; try lia.
      exists cs. left. reflexivity.
    + destruct (waitForCompletion_waits st); [discriminate H|].
      injection H as <-.
      split; unfold outstanding, numJobs in *; simpl;
        rewrite ?midcall_compile; simpl; try lia.
      exists cs. left. reflexivity.
    + injection H as <-.
      pose proof (sum_map_nonneg (cmd_incr_of e) (compile cs)
                    (cmd_incr_of_nonneg e)) as Hfut'.
      assert (Hnum : numJobs e (set_numJobs e' (wrap_int (numJobs e' st + 1)) st)
                     = numJobs e st + (if Nat.eqb e e' then 1 else 0)).
      { rewrite numJobs_set. destruct (Nat.eqb_spec e e') as [<-|Hne]; [|lia].
        rewrite Hcount. apply wrap_int_id. unfold INT_MIN, INT_MAX in *. lia. }
      split.
      * exists cs. right. left. exists e', j. reflexivity.
      * transitivity (numJobs e (set_numJobs e' (wrap_int (numJobs e' st + 1)) st));
          [reflexivity|].
        rewrite Hnum, Hcount. unfold outstanding. simpl.
        destruct (Nat.eqb e e'); lia.
      * unfold outstanding. simpl. destruct (Nat.eqb e e'); lia.
    + destruct (numJobs e' st =? 0); [|discriminate H].
      injection H as <-.
      split; unfold outstanding, numJobs in *; simpl;
        rewrite ?midcall_compile; simpl; try lia.
      exists cs. left. reflexivity.
    + injection H as <-.
      split; unfold outstanding, numJobs in *; simpl; try lia.
      exists cs. right. right. reflexivity.
  - injection H as <-. simpl in Hcount, Hbound, Hpos.
    split; unfold outstanding, numJobs in *; simpl;
      rewrite ?midcall_compile, ?sum_map_app; simpl; try lia.
    exists cs. left. reflexivity.
  - destruct (forallb exited (mThreads st)); [|discriminate H].
    destruct (mNumBusyThreads st =? 0); [|discriminate H].
    injection H as <-. simpl in Hcount, Hbound, Hpos.
    split; unfold outstanding, numJobs in *; simpl;
      rewrite ?midcall_compile; simpl; try lia.
    exists cs. left. reflexivity.
Qed.

Lemma executor_inv_reachable (e : ExecutorId) (n : nat) (calls : list Call)
    (st : State) :
  sum_map (call_of e) calls <= INT_MAX ->
  reachable (initial n calls) st ->
  executor_inv e (sum_map (call_of e) calls) st.
Proof.
  intros HM.
  apply (reachable_invariant (executor_inv e (sum_map (call_of e) calls))).
  - apply executor_inv_initial.
  - intros [|i] s s' IH H; simpl in H.
    + exact (executor_inv_client_step e _ s s' HM IH H).
    + exact (executor_inv_worker_step e _ i s s' HM IH H).
Qed.

Lemma sum_map_Forall_eq {A : Type} (f g : A -> Z) (l : list A) :
  Forall (fun x => f x = g x) l -> sum_map f l = sum_map g l.
Proof.
  induction 1 as [|x l Hx _ IH]; simpl; [reflexivity | rewrite Hx, IH; reflexivity].
Qed.

Lemma sum_map_zero {A : Type} (f : A -> Z) (l : list A) :
  (forall x, 0 <= f x) -> sum_map f l = 0 -> Forall (fun x => f x = 0) l.
Proof.
  intros Hf. induction l as [|x l IH]; simpl; intros H; constructor.
  - pose proof (Hf x). pose proof (sum_map_nonneg f l Hf). lia.
  - apply IH. pose proof (Hf x). pose proof (sum_map_nonneg f l Hf). lia.
Qed.

Lemma user_actions_not_done (e : ExecutorId) (body : list UserAction)
    (done rest : list Action) :
  map AUser body = done ++ rest -> sum_map (action_done e) rest = 0.
Proof.
  revert done rest. induction body as [|a body IH]; intros done rest H.
  - destruct done; destruct rest; try discriminate H. reflexivity.
  - destruct done as [|x done]; simpl in H.
    + rewrite <- H. simpl. exact (IH [] (map AUser body) eq_refl).
    + injection H as _ H. exact (IH done rest H).
Qed.

(** The decrement is the last statement of the lambda: as long as anything
    of the lambda is left, the decrement is. *)
Lemma decrement_comes_last (e e' : ExecutorId) (body : list UserAction)
    (done : list Action) (a : Action) (rest : list Action) :
  map AUser body ++ [AExecutorDone e'] = done ++ a :: rest ->
  sum_map (action_done e) (a :: rest) = if Nat.eqb e e' then 1 else 0.
Proof.
  revert done. induction body as [|b body IH]; intros done H.
  - destruct done as [|x done]; simpl in H.
    + injection H as <- <-. simpl. lia.
    + injection H as _ H. destruct done; discriminate H.
  - destruct done as [|x done]; simpl in H.
    + injection H as <- <-.
      change (sum_map (action_done e)
                (AUser b :: (map AUser body ++ [AExecutorDone e'])))
        with (0 + sum_map (action_done e) (map AUser body ++ [AExecutorDone e'])).
      rewrite sum_map_app.
      rewrite (user_actions_not_done e body [] (map AUser body) eq_refl).
      simpl. lia.
    + injection H as _ H. exact (IH done H).
Qed.

Lemma coherent_worker_unfinished (e : ExecutorId) (w : Worker) :
  worker_coherent w -> worker_tracked e w = worker_unfinished e w.
Proof.
  destruct w as [| |[pj|] rest|]; simpl; try reflexivity.
  - intros [done H]. destruct rest as [|a rest]; [reflexivity|].
    destruct pj as [j|e' j]; simpl in H.
    + exact (user_actions_not_done e (job_body j) done (a :: rest) H).
    + exact (decrement_comes_last e e' (job_body j) done a rest H).
  - intros ->. reflexivity.
Qed.

Lemma outstanding_unfinished (e : ExecutorId) (st : State) :
  Forall worker_coherent (mThreads st) -> outstanding e st = unfinished e st.
Proof.
  intros H. unfold outstanding, unfinished. f_equal.
  apply sum_map_Forall_eq.
  apply (Forall_impl _ _ _ H). intros w. apply coherent_worker_unfinished.
Qed.

Lemma unfinished_nonneg (e : ExecutorId) (st : State) : 0 <= unfinished e st.
Proof.
  unfold unfinished.
  pose proof (midcall_nonneg e (client st)).
  pose proof (sum_map_nonneg (tracked_by e) (mJobsQueue st)
                (fun pj => proj1 (tracked_by_range e pj))).
  assert (0 <= sum_map (worker_unfinished e) (mThreads st)).
  { apply sum_map_nonneg. intros [| |[pj|] [|a r]|]; simpl; try lia.
    apply tracked_by_range. }
  lia.
Qed.

Lemma executor_count_inv_initial (e : ExecutorId) (n : nat) (calls : list Call) :
  executor_count_inv e (initial n calls).
Proof.
  assert (Hw : sum_map (worker_tracked e) (replicate n WLoop) = 0).
  { induction n as [|n IH]; simpl; [reflexivity | exact IH]. }
  split.
  - exists calls. left. reflexivity.
  - simpl. apply Forall_replicate. exact I.
  - unfold outstanding. simpl. rewrite midcall_compile, Hw. reflexivity.
Qed.

Lemma executor_count_inv_worker_step (e : ExecutorId) (i : nat) (st st' : State) :
  executor_count_inv e st -> threadExecLoop i st = Next st' ->
  executor_count_inv e st'.
Proof.
  intros [Hwf Hco Hcount] H.
  unfold outstanding in Hcount.
  unfold threadExecLoop, grabNextJob, jobAvailable in H.
  destruct (mThreads st !! i) as [[| |origin [|a rest]|]|] eqn:Hi;
    try discriminate H.
  - injection H as <-. split; simpl; [exact Hwf | |].
    + apply Forall_insert; [exact Hco | destruct (mTerminate st); exact I].
    + unfold outstanding, numJobs in *. simpl.
      rewrite (sum_map_insert _ _ _ _ _ Hi), Hcount.
      apply (f_equal wrap_int). destruct (mTerminate st); simpl; lia.
  - destruct ((0 <? Z.of_nat (length (mJobsQueue st))) || mTerminate st);
      [|discriminate H].
    simpl in H.
    destruct (mTerminate st); simpl in H.
    + injection H as <-. split; simpl; [exact Hwf | |].
      * apply Forall_insert; [exact Hco | reflexivity].
      * unfold outstanding, numJobs in *. simpl.
        rewrite (sum_map_insert _ _ _ _ _ Hi), Hcount. apply (f_equal wrap_int). simpl. lia.
    + destruct (mJobsQueue st) as [|pj q] eqn:Hq; [discriminate H|].
      injection H as <-. split; simpl; [exact Hwf | |].
      * apply Forall_insert; [exact Hco | exists []; reflexivity].
      * unfold outstanding, numJobs in *. simpl in *.
        rewrite (sum_map_insert _ _ _ _ _ Hi), Hcount. apply (f_equal wrap_int). simpl.
        rewrite job_actions_tracked. lia.
  - injection H as <-. split; simpl; [exact Hwf | |].
    + apply Forall_insert; [exact Hco | exact I].
    + unfold outstanding, numJobs in *. simpl.
      rewrite (sum_map_insert _ _ _ _ _ Hi), Hcount. apply (f_equal wrap_int). simpl. lia.
  - injection H as <-.
    pose proof (Forall_lookup_1 _ _ _ _ Hco Hi) as Hw.
    assert (Hw' : worker_coherent (WRun origin rest)).
    { destruct origin as [pj|]; simpl in *; [|discriminate Hw].
      destruct Hw as [done Hd]. exists (done ++ [a]).
      rewrite <- app_assoc. exact Hd. }
    destruct a as [[|]|e']; simpl in *.
    + split; simpl; [exact Hwf | apply Forall_insert; assumption |].
      unfold outstanding, numJobs in *. simpl.
      rewrite (sum_map_insert _ _ _ _ _ Hi), Hcount. apply (f_equal wrap_int). simpl. lia.
    + split; simpl; [exact Hwf | apply Forall_insert; assumption |].
      unfold outstanding, numJobs in *. simpl.
      rewrite (sum_map_insert _ _ _ _ _ Hi), Hcount. apply (f_equal wrap_int). simpl. lia.
    + split; simpl; [exact Hwf | apply Forall_insert; assumption |].
      transitivity (numJobs e (set_numJobs e' (wrap_int (numJobs e' st - 1)) st));
        [reflexivity|].
      rewrite numJobs_set. unfold outstanding. simpl.
      rewrite (sum_map_insert _ _ _ _ _ Hi). simpl.
      destruct (Nat.eqb_spec e e') as [<-|Hne].
      * unfold numJobs in *.
        rewrite Hcount, wrap_int_wrap_sub. apply (f_equal wrap_int). lia.
      * unfold numJobs in *. rewrite Hcount. apply (f_equal wrap_int). lia.
Qed.

Lemma executor_count_inv_client_step (e : ExecutorId) (st st' : State) :
  executor_count_inv e st -> clientStep st = Next st' ->
  executor_count_inv e st'.
Proof.
  intros [Hwf Hco Hcount] H.
  unfold outstanding in Hcount.
  unfold clientStep in H.
  destruct Hwf as [cs [Hc | [(e' & j & Hc) | Hc]]]; rewrite Hc in *.
  - rewrite midcall_compile in *.
    destruct cs as [|[j| |e' j|e'|] cs]; simpl in H.
    + discriminate H.
    + injection H as <-. split; simpl; [| exact Hco |].
      * exists cs. left. reflexivity.
      * unfold outstanding, numJobs in *. simpl.
        rewrite midcall_compile, sum_map_app, Hcount. apply (f_equal wrap_int). simpl. lia.
    + destruct (waitForCompletion_waits st); [discriminate H|].
      injection H as <-. split; simpl; [| exact Hco |].
      * exists cs. left. reflexivity.
      * unfold outstanding, numJobs in *. simpl.
        rewrite midcall_compile, Hcount. apply (f_equal wrap_int). lia.
    + injection H as <-. split; simpl; [| exact Hco |].
      * exists cs. right. left. exists e', j. reflexivity.
      * transitivity (numJobs e (set_numJobs e' (wrap_int (numJobs e' st + 1)) st));
          [reflexivity|].
        rewrite numJobs_set. unfold outstanding. simpl.
        destruct (Nat.eqb_spec e e') as [<-|Hne].
        -- unfold numJobs in *. rewrite Hcount, wrap_int_wrap_add. apply (f_equal wrap_int). lia.
        -- unfold numJobs in *. rewrite Hcount. apply (f_equal wrap_int). lia.
    + destruct (numJobs e' st =? 0); [|discriminate H].
      injection H as <-. split; simpl; [| exact Hco |].
      * exists cs. left. reflexivity.
      * unfold outstanding, numJobs in *. simpl.
        rewrite midcall_compile, Hcount. apply (f_equal wrap_int). lia.
    + injection H as <-. split; simpl; [| exact Hco |].
      * exists cs. right. right. reflexivity.
      * unfold outstanding, numJobs in *. simpl. rewrite Hcount. apply (f_equal wrap_int). lia.
  - injection H as <-. simpl in Hcount. split; simpl; [| exact Hco |].
    + exists cs. left. reflexivity.
    + unfold outstanding, numJobs in *. simpl.
      rewrite midcall_compile, sum_map_app, Hcount. apply (f_equal wrap_int). simpl. lia.
  - destruct (forallb exited (mThreads st)); [|discriminate H].
    destruct (mNumBusyThreads st =? 0); [|discriminate H].
    injection H as <-. simpl in Hcount. split; simpl; [| exact Hco |].
    + exists cs. left. reflexivity.
    + unfold outstanding, numJobs in *. simpl.
      rewrite midcall_compile, Hcount. apply (f_equal wrap_int). lia.
Qed.

Lemma executor_count_inv_reachable (e : ExecutorId) (n : nat) (calls : list Call)
    (st : State) :
  reachable (initial n calls) st -> executor_count_inv e st.
Proof.
  apply (reachable_invariant (executor_count_inv e)).
  - apply executor_count_inv_initial.
  - intros [|i] s s' IH H; simpl in H.
    + exact (executor_count_inv_client_step e s s' IH H).
    + exact (executor_count_inv_worker_step e i s s' IH H).
Qed.

Lemma wrap_int_zero (z : Z) : 0 <= z < UINT_MOD -> (wrap_int z = 0 <-> z = 0).
Proof.
  intros Hz. split; [|intros ->; reflexivity].
  unfold wrap_int, INT_MIN, UINT_MOD in *. intros H.
  destruct (Z.lt_ge_cases z 2147483648) as [Hlt|Hge].
  - rewrite Z.mod_small in H by lia. lia.
  - replace (z - -2147483648) with ((z - 2147483648) + 1 * 4294967296) in H by lia.
    rewrite Z_mod_plus_full, Z.mod_small in H by lia. lia.
Qed.

(** The owner's [m] calls of [addJob] on executor [e], run one after the
    other while the workers stand still. *)
Lemma many_submissions_run (e : ExecutorId) (j : UserJob) (m : nat)
    (cs : list Call) (st : State) :
  client st = compile (repeat (ExecutorAddJob e j) m ++ cs) ->
  INT_MIN <= numJobs e st <= INT_MAX ->
  exists st', run (manySubmissions m) st = Next st' /\
              client st' = compile cs /\
              numJobs e st' = wrap_int (numJobs e st + Z.of_nat m) /\
              mJobsQueue st' = mJobsQueue st ++ repeat (Tracked e j) m /\
              mThreads st' = mThreads st /\
              lCounter st' = lCounter st.
Proof.
  revert st. induction m as [|m IH]; intros st Hc Hr.
  - exists st. rewrite app_nil_r, Z.add_0_r, wrap_int_id by exact Hr.
    repeat split. exact Hc.
  - set (st1 := set_client (compile (repeat (ExecutorAddJob e j) m ++ cs))
                  (addJob (Tracked e j)
                     (set_numJobs e (wrap_int (numJobs e st + 1)) st))).
    assert (Hn1 : numJobs e st1 = wrap_int (numJobs e st + 1)).
    { transitivity (numJobs e (set_numJobs e (wrap_int (numJobs e st + 1)) st));
        [reflexivity|].
      rewrite numJobs_set, Nat.eqb_refl. reflexivity. }
    destruct (IH st1) as (st' & Hrun & Hc' & Hn' & Hq' & Hth' & Hl');
      [reflexivity | rewrite Hn1; apply wrap_int_range |].
    exists st'. split; [|split; [exact Hc' |split;[|split;[|split]]]].
    + change (manySubmissions (S m))
        with (LClient :: LClient :: manySubmissions m).
      cbn [run step]. unfold clientStep at 1. rewrite Hc.
      change (compile (repeat (ExecutorAddJob e j) (S m) ++ cs))
        with (CExecIncr e :: CPush (Tracked e j)
              :: compile (repeat (ExecutorAddJob e j) m ++ cs)).
      cbv beta iota. unfold clientStep at 1.
      cbn [client set_client]. exact Hrun.
    + rewrite Hn', Hn1, wrap_int_wrap_add. apply (f_equal wrap_int). lia.
    + rewrite Hq'. subst st1. cbn [mJobsQueue set_client addJob set_numJobs].
      rewrite <- app_assoc. reflexivity.
    + rewrite Hth'. reflexivity.
    + rewrite Hl'. reflexivity.
Qed.

Lemma sum_tracked_repeat (e : ExecutorId) (j : UserJob) (m : nat) :
  sum_map (tracked_by e) (repeat (Tracked e j) m) = Z.of_nat m.
Proof.
  induction m as [|m IH]; [reflexivity|].
  cbn [repeat sum_map tracked_by]. rewrite IH, Nat.eqb_refl. lia.
Qed.

Lemma two_pow_32_value : Z.of_nat two_pow_32 = 4294967296.
Proof. unfold two_pow_32. apply Z2Nat.id. lia. Qed.

(** With as many jobs given to the executor as its counter has values, the
    count is back at zero while every job is still queued. *)
Lemma counter_wraps_to_zero (m : nat) :
  Z.of_nat m = 4294967296 ->
  exists st,
    reachable (initial 1 (manyJobs m)) st /\
    client st = [CExecWait 0%nat] /\
    mJobsQueue st = repeat (Tracked 0%nat lFunction) m /\
    unfinished 0%nat st = 4294967296 /\
    lCounter st = 0 /\
    clientStep st = Next (set_client [] st).
Proof.
  intros Hm.
  destruct (many_submissions_run 0%nat lFunction m
              [ExecutorWaitForCompletion 0%nat] (initial 1 (manyJobs m)))
    as (st & Hrun & Hc & Hn & Hq & Hth & Hl).
  { reflexivity. }
  { replace (numJobs 0%nat (initial 1 (manyJobs m))) with 0 by reflexivity.
    unfold INT_MIN, INT_MAX. lia. }
  replace (numJobs 0%nat (initial 1 (manyJobs m))) with 0 in Hn by reflexivity.
  change (compile [ExecutorWaitForCompletion 0%nat]) with [CExecWait 0%nat] in Hc.
  exists st. split; [exists (manySubmissions m); exact Hrun|].
  split; [exact Hc|]. split; [exact Hq|]. split; [|split; [exact Hl|]].
  - unfold unfinished. rewrite Hc, Hq, Hth. cbn [midcall initial mJobsQueue mThreads app].
    rewrite sum_tracked_repeat, Hm. reflexivity.
  - unfold clientStep. rewrite Hc. cbv beta iota. rewrite Hn, Hm. reflexivity.
Qed.

(** C3. The count [mNumJobs] of an executor is the number of its own
    unfinished jobs, modulo 2^32, and jobs of other users of the pool do
    not enter it.  As long as fewer than 2^32 of its jobs are unfinished,
    its [waitForCompletion] returns exactly when none of them is: none is
    being submitted or queued, and every worker that holds one has run it
    to the end.  With executors 0 and 1 on one pool, two jobs each: the
    wait of executor 0 returns when its two jobs are done although both
    jobs of executor 1 are still running, it stays blocked when only the
    jobs of executor 1 are done, and the same holds with the roles
    swapped. *)
Theorem executor_waits_for_own_jobs_only
    (n : nat) (calls : list Call) (e : ExecutorId) (st : State) :
  reachable (initial n calls) st ->
  numJobs e st = wrap_int (unfinished e st) /\
  (unfinished e st < UINT_MOD ->
   forall k, client st = CExecWait e :: k ->
     (clientStep st = Next (set_client k st) <-> unfinished e st = 0) /\
     (clientStep st = Blocked <-> 0 < unfinished e st)) /\
  (unfinished e st = 0 ->
   midcall e (client st) = 0 /\
   Forall (fun pj => tracked_by e pj = 0) (mJobsQueue st) /\
   Forall (fun w => forall j rest,
             w = WRun (Some (Tracked e j)) rest -> rest = []) (mThreads st)) /\
  (exists sA, reachable (initial 4 (twoExecutors 0%nat)) sA /\
              client sA = [] /\ lCounter sA = 2 /\
              unfinished 0%nat sA = 0 /\ unfinished 1%nat sA = 2) /\
  run (twoFinish 2 3) (initial 4 (twoExecutors 0%nat)) = Blocked /\
  (exists sB, reachable (initial 4 (twoExecutors 1%nat)) sB /\
              client sB = [] /\ lCounter sB = 2 /\
              unfinished 1%nat sB = 0 /\ unfinished 0%nat sB = 2) /\
  run (twoFinish 0 1) (initial 4 (twoExecutors 1%nat)) = Blocked.
Proof.
  intros Hreach.
  destruct (executor_count_inv_reachable e n calls st Hreach) as [_ Hco Hcount].
  rewrite (outstanding_unfinished e st Hco) in Hcount.
  pose proof (unfinished_nonneg e st) as Hpos.
  split; [exact Hcount|]. split; [|split; [|split; [|split; [|split]]]].
  - intros Hlt k Hc.
    pose proof (wrap_int_zero (unfinished e st) (conj Hpos Hlt)) as Hz.
    unfold clientStep. rewrite Hc, Hcount.
    destruct (Z.eqb_spec (wrap_int (unfinished e st)) 0) as [Heq|Hne].
    + apply Hz in Heq. intuition (try congruence; try lia).
    + assert (unfinished e st <> 0) by (intros H0; apply Hne, Hz, H0).
      intuition (try congruence; try lia).
  - intros H0. unfold unfinished in H0.
    pose proof (midcall_nonneg e (client st)) as Hm.
    pose proof (sum_map_nonneg (tracked_by e) (mJobsQueue st)
                  (fun pj => proj1 (tracked_by_range e pj))) as Hq.
    assert (Hwn : forall w, 0 <= worker_unfinished e w).
    { intros [| |[pj|] [|a r]|]; simpl; try lia. apply tracked_by_range. }
    pose proof (sum_map_nonneg (worker_unfinished e) (mThreads st) Hwn) as Hw.
    split; [lia|]. split.
    + apply sum_map_zero; [intros pj; apply tracked_by_range | lia].
    + assert (Hw0 : sum_map (worker_unfinished e) (mThreads st) = 0) by lia.
      apply (Forall_impl _ _ _ (sum_map_zero _ _ Hwn Hw0)).
      intros w Hz j rest ->. destruct rest as [|a rest]; [reflexivity|].
      simpl in Hz. rewrite Nat.eqb_refl in Hz. discriminate Hz.
  - exists (state_after (twoFinish 0 1) (initial 4 (twoExecutors 0%nat))).
    split; [exists (twoFinish 0 1)|]; vm_compute; repeat split; reflexivity.
  - vm_compute. reflexivity.
  - exists (state_after (twoFinish 2 3) (initial 4 (twoExecutors 1%nat))).
    split; [exists (twoFinish 2 3)|]; vm_compute; repeat split; reflexivity.
  - vm_compute. reflexivity.
Qed.

Lemma executor_waits_for_own_jobs_only_witness :
  numJobs 1%nat (state_after (twoFinish 0 1) (initial 4 (twoExecutors 0%nat)))
  = wrap_int
      (unfinished 1%nat
         (state_after (twoFinish 0 1) (initial 4 (twoExecutors 0%nat)))) /\
  unfinished 1%nat
    (state_after (twoFinish 0 1) (initial 4 (twoExecutors 0%nat))) = 2.
Proof.
  split; [|vm_compute; reflexivity].
  apply (executor_waits_for_own_jobs_only 4 (twoExecutors 0%nat) 1%nat).
  exists (twoFinish 0 1). vm_compute. reflexivity.
Defined.

(** C3, as stated, fails: executor 0 is given 2^32 jobs on a pool of one
    worker that has not yet taken any.  The count has wrapped to zero, so
    [waitForCompletion] returns although all 2^32 jobs are still queued and
    none has run. *)
Lemma executor_wait_returns_with_all_jobs_queued :
  exists st,
    reachable (initial 1 (manyJobs two_pow_32)) st /\
    client st = [CExecWait 0%nat] /\
    mJobsQueue st = repeat (Tracked 0%nat lFunction) two_pow_32 /\
    unfinished 0%nat st = 4294967296 /\
    lCounter st = 0 /\
    clientStep st = Next (set_client [] st).
Proof. exact (counter_wraps_to_zero two_pow_32 two_pow_32_value). Qed.

(** * Further properties of the pool *)

Lemma waitForCompletion_returns_iff_idle_witness :
  clientStep (state_after [LClient] (initial 1 (submit_then_wait [lFunction])))
  = Blocked.
Proof.
  destruct (waitForCompletion_returns_iff_idle 1 (submit_then_wait [lFunction])
              (state_after [LClient] (initial 1 (submit_then_wait [lFunction])))
              []) as [H _];
    [ unfold INT_MAX; lia
    | exists [LClient]; vm_compute; reflexivity
    | reflexivity
    | apply H; left; discriminate ].
Defined.

(** X2. Neither [assert(!mJobsQueue.empty())] in [grabNextJob] nor
    [assert(mNumBusyThreads == 0)] in the destructor can fail. *)
Theorem pool_assertions_never_fail
    (n : nat) (calls : list Call) (st : State) (l : Label) :
  Z.of_nat n <= INT_MAX ->
  reachable (initial n calls) st ->
  step l st <> AssertionFailed.
Proof.
  intros Hn Hreach.
  destruct (pool_inv_reachable n calls st Hn Hreach) as [_ Hbusy].
  destruct l as [|i]; simpl.
  - unfold clientStep.
    destruct (client st) as [|[pj| |e|e| |] k]; try congruence.
    + destruct (waitForCompletion_waits st); congruence.
    + destruct (numJobs e st =? 0); congruence.
    + destruct (forallb exited (mThreads st)) eqn:Hex; [|congruence].
      rewrite Hbusy, (count_running_exited _ Hex). simpl. congruence.
  - unfold threadExecLoop.
    destruct (mThreads st !! i) as [[| |origin [|a rest]|]|]; try congruence.
    apply grabNextJob_assertion_holds.
Qed.

Lemma pool_assertions_never_fail_witness :
  step LClient (state_after [LClient; LClient; LWorker 0]
                  (initial 1 [AddJob lFunction; Destroy]))
  <> AssertionFailed.
Proof.
  apply (pool_assertions_never_fail 1 [AddJob lFunction; Destroy]);
    [ unfold INT_MAX; lia
    | exists [LClient; LClient; LWorker 0]; vm_compute; reflexivity ].
Defined.

(** X3. Whatever the owner does, destruction included: every job handed to
    [addJob] is, as often as it was handed in, either still in the queue, or
    inside a worker, or done.  None is lost and none runs twice. *)
Theorem no_job_lost_or_duplicated
    (n : nat) (calls : list Call) (st : State) (pj : PoolJob) :
  reachable (initial n calls) st ->
  occurrences pj (hSubmitted st)
  = occurrences pj (hCompleted st)
    + sum_map (worker_job pj) (mThreads st)
    + occurrences pj (mJobsQueue st).
Proof.
  intros Hreach.
  pose proof (dequeued_reachable pj n calls st Hreach) as Hdeq.
  rewrite (fifo_reachable n calls st Hreach).
  unfold occurrences in *. rewrite sum_map_app. lia.
Qed.

Lemma no_job_lost_or_duplicated_witness :
  occurrences (Direct lFunction)
    (hSubmitted (state_after overtaking
                   (initial 2 [AddJob lFunction; AddJob quickJob])))
  = 1 + 0 + 0.
Proof.
  rewrite (no_job_lost_or_duplicated 2 [AddJob lFunction; AddJob quickJob]
             (state_after overtaking
                (initial 2 [AddJob lFunction; AddJob quickJob]))
             (Direct lFunction));
    [ vm_compute; reflexivity
    | exists overtaking; vm_compute; reflexivity ].
Defined.

Lemma sum_map_plus {A : Type} (f g : A -> Z) (l : list A) :
  sum_map (fun x => f x + g x) l = sum_map f l + sum_map g l.
Proof. induction l as [|x l IH]; simpl; [reflexivity | rewrite IH; lia]. Qed.

Lemma count_running_sum (ws : list Worker) :
  count_running ws = sum_map holds_job ws + sum_map holds_standin ws.
Proof.
  induction ws as [|w ws IH]; simpl; [reflexivity|].
  rewrite IH. destruct w as [| |[pj|] rest|]; simpl; lia.
Qed.

Lemma sum_map_replicate_zero {A : Type} (f : A -> Z) (x : A) (n : nat) :
  f x = 0 -> sum_map f (replicate n x) = 0.
Proof. intros Hx. induction n as [|n IH]; simpl; [reflexivity | lia]. Qed.

Lemma holds_standin_nonneg (w : Worker) : 0 <= holds_standin w.
Proof. destruct w as [| |[pj|] rest|]; simpl; lia. Qed.

(** As long as [mTerminate] is false no worker has left its loop and none
    runs the stand-in job; the jobs taken from the queue are the finished
    ones and those inside a worker. *)
Lemma alive_step (l : Label) (st st' : State) :
  (mTerminate st = false ->
   sum_map exited_count (mThreads st) = 0 /\
   sum_map holds_standin (mThreads st) = 0) ->
  step l st = Next st' ->
  mTerminate st' = false ->
  sum_map exited_count (mThreads st') = 0 /\
  sum_map holds_standin (mThreads st') = 0.
Proof.
  intros IH H Ht'.
  assert (Ht : mTerminate st = false).
  { destruct (mTerminate st) eqn:E; [|reflexivity].
    rewrite (terminate_monotone_step l st st' H E) in Ht'. discriminate Ht'. }
  destruct (IH Ht) as [Hex Hst]. clear IH.
  step_cases H; simpl in *; perform_frame;
    try (split; assumption); try congruence;
    try (rewrite Ht in *; discriminate);
    try match goal with
        | Hi : mThreads _ !! _ = Some (WRun ?o _) |- _ => destruct o
        end;
    match goal with
    | Hi : mThreads _ !! _ = Some _ |- _ =>
        pose proof (sum_map_lookup_le holds_standin _ _ _
                      holds_standin_nonneg Hi) as Hle
    end;
    rewrite !(sum_map_insert _ _ _ _ _ ltac:(eassumption)); simpl in *;
    split; lia.
Qed.

Lemma alive_reachable (n : nat) (calls : list Call) (st : State) :
  reachable (initial n calls) st ->
  mTerminate st = false ->
  sum_map exited_count (mThreads st) = 0 /\
  sum_map holds_standin (mThreads st) = 0.
Proof.
  apply (reachable_invariant
           (fun s => mTerminate s = false ->
                     sum_map exited_count (mThreads s) = 0 /\
                     sum_map holds_standin (mThreads s) = 0)).
  - intros _. simpl. rewrite !sum_map_replicate_zero; split; reflexivity.
  - intros l s s' IH H. exact (alive_step l s s' IH H).
Qed.

Lemma exited_count_nonneg (w : Worker) : 0 <= exited_count w.
Proof. destruct w; simpl; lia. Qed.

(** X4. A worker leaves [threadExecLoop] only after the destructor has set
    [mTerminate]: until then every worker is at the loop test, waiting in
    [grabNextJob] or inside a job taken from the queue. *)
Theorem workers_stay_until_terminate
    (n : nat) (calls : list Call) (st : State) (i : nat) (w : Worker) :
  reachable (initial n calls) st ->
  mTerminate st = false ->
  mThreads st !! i = Some w ->
  w = WLoop \/ w = WGrab \/ exists pj rest, w = WRun (Some pj) rest.
Proof.
  intros Hreach Ht Hi.
  destruct (alive_reachable n calls st Hreach Ht) as [Hex Hst].
  pose proof (sum_map_lookup_le exited_count _ _ _ exited_count_nonneg Hi).
  pose proof (sum_map_lookup_le holds_standin _ _ _ holds_standin_nonneg Hi).
  destruct w as [| |[pj|] rest|]; simpl in *; try lia; eauto.
Qed.

Lemma workers_stay_until_terminate_witness :
  mThreads (state_after bothBusy (initial 2 [AddJob lFunction; AddJob quickJob]))
    !! 1%nat
  = Some (WRun (Some (Direct quickJob)) (job_actions (Direct quickJob))) /\
  (WRun (Some (Direct quickJob)) (job_actions (Direct quickJob)) = WLoop \/
   WRun (Some (Direct quickJob)) (job_actions (Direct quickJob)) = WGrab \/
   exists pj rest,
     WRun (Some (Direct quickJob)) (job_actions (Direct quickJob))
     = WRun (Some pj) rest).
Proof.
  split; [vm_compute; reflexivity|].
  apply (workers_stay_until_terminate 2 [AddJob lFunction; AddJob quickJob]
           (state_after bothBusy (initial 2 [AddJob lFunction; AddJob quickJob]))
           1%nat);
    [ exists bothBusy; vm_compute; reflexivity
    | vm_compute; reflexivity
    | vm_compute; reflexivity ].
Defined.

Lemma in_flight_step (l : Label) (st st' : State) :
  Z.of_nat (length (hDequeued st))
  = Z.of_nat (length (hCompleted st)) + sum_map holds_job (mThreads st) ->
  step l st = Next st' ->
  Z.of_nat (length (hDequeued st'))
  = Z.of_nat (length (hCompleted st')) + sum_map holds_job (mThreads st').
Proof.
  intros IH H.
  step_cases H; simpl in *; perform_frame; try assumption;
    try match goal with
        | Hi : mThreads _ !! _ = Some (WRun ?o _) |- _ => destruct o
        end;
    try (erewrite sum_map_insert by eassumption; simpl);
    rewrite ?length_app; simpl; try lia.
Qed.

Lemma in_flight_reachable (n : nat) (calls : list Call) (st : State) :
  reachable (initial n calls) st ->
  Z.of_nat (length (hDequeued st))
  = Z.of_nat (length (hCompleted st)) + sum_map holds_job (mThreads st).
Proof.
  apply (reachable_invariant
           (fun s => Z.of_nat (length (hDequeued s))
                     = Z.of_nat (length (hCompleted s))
                       + sum_map holds_job (mThreads s))).
  - simpl. rewrite sum_map_replicate_zero; reflexivity.
  - intros l s s' IH H. exact (in_flight_step l s s' IH H).
Qed.

(** X5. Until the pool is destroyed [getNumBusyThreads] is exactly the number
    of jobs taken from the queue and not yet returned; so it can exceed
    neither the number of workers nor the number of jobs submitted and not
    yet finished. *)
Theorem busy_count_is_jobs_in_flight
    (n : nat) (calls : list Call) (st : State) :
  Z.of_nat n <= INT_MAX ->
  reachable (initial n calls) st ->
  mTerminate st = false ->
  getNumBusyThreads st
  = Z.of_nat (length (hDequeued st)) - Z.of_nat (length (hCompleted st)) /\
  getNumBusyThreads st
  <= Z.of_nat (length (hSubmitted st)) - Z.of_nat (length (hCompleted st)) /\
  getNumBusyThreads st <= Z.of_nat n.
Proof.
  intros Hn Hreach Ht.
  destruct (pool_inv_reachable n calls st Hn Hreach) as [Hlen Hbusy].
  destruct (alive_reachable n calls st Hreach Ht) as [_ Hst].
  pose proof (in_flight_reachable n calls st Hreach) as Hfl.
  pose proof (fifo_reachable n calls st Hreach) as Hfifo.
  pose proof (count_running_range (mThreads st)) as Hr.
  unfold getNumBusyThreads.
  rewrite Hbusy, count_running_sum, Hst, Hfifo, length_app in *. lia.
Qed.

Lemma busy_count_is_jobs_in_flight_witness :
  getNumBusyThreads
    (state_after (bothBusy ++ [LWorker 1; LWorker 1])
       (initial 2 [AddJob lFunction; AddJob quickJob]))
  = 2 - 1.
Proof.
  apply (busy_count_is_jobs_in_flight 2 [AddJob lFunction; AddJob quickJob]);
    [ unfold INT_MAX; lia
    | exists (bothBusy ++ [LWorker 1; LWorker 1]); vm_compute; reflexivity
    | vm_compute; reflexivity ].
Defined.

(** A worker inside a job runs it to its end and reports back. *)
Lemma worker_returns (i : nat) (origin : option PoolJob) (rest : list Action)
    (st : State) :
  mThreads st !! i = Some (WRun origin rest) ->
  exists ls st', run ls st = Next st' /\
                 mThreads st' = <[i := WLoop]> (mThreads st) /\
                 mTerminate st' = mTerminate st /\
                 mJobsQueue st' = mJobsQueue st /\
                 client st' = client st /\
                 mNumBusyThreads st' = wrap_int (mNumBusyThreads st - 1).
Proof.
  intros Hi.
  assert (Hlt : (i < length (mThreads st))%nat) by (eapply lookup_lt_Some; eauto).
  destruct (actions_run i origin rest st Hi)
    as (st1 & Hrun & Hth & Ht & Hb & Hq & Hc).
  exists (replicate (length rest) (LWorker i) ++ [LWorker i]),
         (jobReturned i origin st1).
  rewrite (run_app _ _ _ _ Hrun). simpl. unfold threadExecLoop.
  rewrite Hth, list_lookup_insert_eq by exact Hlt.
  split; [reflexivity|]. simpl.
  rewrite ?Hth, ?Ht, ?Hb, ?Hq, ?Hc, list_insert_insert_eq. repeat split.
Qed.

Lemma first_workers_return (k : nat) (st : State) :
  (k <= length (mThreads st))%nat ->
  exists ls st', run ls st = Next st' /\
                 length (mThreads st') = length (mThreads st) /\
                 (forall j w, (j < k)%nat -> mThreads st' !! j = Some w ->
                              running w = 0) /\
                 mTerminate st' = mTerminate st /\
                 mJobsQueue st' = mJobsQueue st /\
                 client st' = client st.
Proof.
  induction k as [|k IH]; intros Hk.
  - exists [], st. repeat split. intros j w Hj. lia.
  - destruct IH as (ls & st1 & Hrun & Hlen & Hidle & Ht1 & Hq1 & Hc1); [lia|].
    destruct (lookup_lt_is_Some_2 (mThreads st1) k) as [w Hw]; [lia|].
    destruct w as [| |origin rest|] eqn:Ew.
    1, 2, 4: exists ls, st1; repeat split; try assumption;
      intros j w' Hj Hj'; destruct (Nat.eq_dec j k) as [->|Hne];
      [ rewrite Hw in Hj'; injection Hj' as <-; reflexivity
      | apply (Hidle j w'); [lia | exact Hj'] ].
    destruct (worker_returns k origin rest st1 Hw)
      as (ls2 & st2 & Hrun2 & Hth2 & Ht2 & Hq2 & Hc2 & _).
    exists (ls ++ ls2), st2.
    rewrite (run_app _ _ _ _ Hrun), Hth2, length_insert.
    repeat split; try congruence.
    intros j w' Hj Hj'. destruct (Nat.eq_dec j k) as [->|Hne].
    + rewrite list_lookup_insert_eq in Hj' by lia. injection Hj' as <-.
      reflexivity.
    + rewrite list_lookup_insert_ne in Hj' by congruence.
      apply (Hidle j w'); [lia | exact Hj'].
Qed.

Lemma count_running_idle (ws : list Worker) :
  (forall j w, ws !! j = Some w -> running w = 0) -> count_running ws = 0.
Proof.
  induction ws as [|x ws IH]; intros H; simpl; [reflexivity|].
  rewrite (H 0%nat x eq_refl), IH; [reflexivity|].
  intros j w Hj. exact (H (S j) w Hj).
Qed.

(** X6. A pool that is not being destroyed never gets stuck: from any state
    its workers can finish what they are doing and empty the queue, after
    which a pending [waitForCompletion] returns. *)
Theorem pool_can_always_drain (n : nat) (calls : list Call) (st : State) :
  (1 <= n)%nat ->
  Z.of_nat n <= INT_MAX ->
  reachable (initial n calls) st ->
  mTerminate st = false ->
  exists ls st',
    run ls st = Next st' /\
    mJobsQueue st' = [] /\
    getNumBusyThreads st' = 0 /\
    client st' = client st /\
    (forall k, client st = CWait :: k ->
               clientStep st' = Next (set_client k st')).
Proof.
  intros Hn1 Hn Hreach Ht.
  destruct (first_workers_return (length (mThreads st)) st (le_n _))
    as (ls1 & st1 & Hrun1 & Hlen1 & Hidle1 & Ht1 & Hq1 & Hc1).
  assert (Hreach1 : reachable (initial n calls) st1).
  { apply (reachable_trans _ st); [exact Hreach | exists ls1; exact Hrun1]. }
  destruct (pool_inv_reachable n calls st1 Hn Hreach1) as [Hn1' Hbusy1].
  assert (Hb1 : mNumBusyThreads st1 = 0).
  { rewrite Hbusy1. apply count_running_idle. intros j w Hj.
    apply (Hidle1 j w); [|exact Hj].
    rewrite <- Hlen1. eapply lookup_lt_Some; eauto. }
  rewrite Ht in Ht1.
  destruct (lookup_lt_is_Some_2 (mThreads st1) 0) as [w0 Hw0]; [lia|].
  assert (Hfinal : exists ls2 st2,
             run ls2 st1 = Next st2 /\ mJobsQueue st2 = [] /\
             mNumBusyThreads st2 = 0 /\ client st2 = client st1).
  { destruct (alive_reachable n calls st1 Hreach1 Ht1) as [Hex1 Hst1].
    pose proof (sum_map_lookup_le exited_count _ _ _ exited_count_nonneg Hw0)
      as Hle1.
    pose proof (sum_map_lookup_le holds_standin _ _ _ holds_standin_nonneg Hw0)
      as Hle2.
    destruct w0 as [| |[pj|] rest|]; simpl in Hle1, Hle2; try lia.
    - destruct (serve_jobs_run 0 (mJobsQueue st1) st1 Hw0 Ht1 eq_refl Hb1)
        as (st2 & Hrun2 & _ & Hb2 & Hq2 & Hc2).
      exists (serve_jobs 0 (mJobsQueue st1)), st2. repeat split; assumption.
    - destruct (mJobsQueue st1) as [|pj q] eqn:Hq.
      + exists [], st1. repeat split; assumption.
      + set (stg := mkState (<[0%nat := WRun (Some pj) (job_actions pj)]>
                               (mThreads st1))
                            false 1 q (mNumJobs st1) (lCounter st1) (client st1)
                            (hSubmitted st1) (hDequeued st1 ++ [pj])
                            (hCompleted st1)).
        assert (Hg : run [LWorker 0] st1 = Next stg).
        { simpl. unfold threadExecLoop. rewrite Hw0.
          unfold grabNextJob, jobAvailable. rewrite Hq, Ht1, Hb1. simpl.
          rewrite Ht1, Hq. reflexivity. }
        destruct (worker_returns 0 (Some pj) (job_actions pj) stg)
          as (ls3 & st3 & Hrun3 & Hth3 & Ht3 & Hq3 & Hc3 & Hb3).
        { simpl. apply list_lookup_insert_eq. lia. }
        simpl in Hth3, Ht3, Hq3, Hc3, Hb3.
        rewrite list_insert_insert_eq in Hth3.
        destruct (serve_jobs_run 0 q st3)
          as (st4 & Hrun4 & _ & Hb4 & Hq4 & Hc4); try assumption.
        { rewrite Hth3. apply list_lookup_insert_eq. lia. }
        exists ([LWorker 0] ++ ls3 ++ serve_jobs 0 q), st4.
        rewrite (run_app _ _ _ _ Hg), (run_app _ _ _ _ Hrun3).
        repeat split; try assumption. congruence.
    - specialize (Hidle1 0%nat _ ltac:(lia) Hw0). discriminate Hidle1. }
  destruct Hfinal as (ls2 & st2 & Hrun2 & Hq2 & Hb2 & Hc2).
  exists (ls1 ++ ls2), st2. rewrite (run_app _ _ _ _ Hrun1).
  unfold getNumBusyThreads.
  repeat split; try assumption; try congruence.
  intros k Hk. unfold clientStep, waitForCompletion_waits.
  rewrite Hc2, Hc1, Hk, Hq2, Hb2. reflexivity.
Qed.

Lemma pool_can_always_drain_witness :
  exists ls st',
    run ls (state_after bothBusy (initial 2 (submit_then_wait [lFunction; quickJob])))
      = Next st' /\
    mJobsQueue st' = [] /\ getNumBusyThreads st' = 0.
Proof.
  destruct (pool_can_always_drain 2 (submit_then_wait [lFunction; quickJob])
              (state_after bothBusy
                 (initial 2 (submit_then_wait [lFunction; quickJob]))))
    as (ls & st' & H1 & H2 & H3 & _);
    [ lia
    | unfold INT_MAX; lia
    | exists bothBusy; vm_compute; reflexivity
    | vm_compute; reflexivity
    | exists ls, st'; repeat split; assumption ].
Defined.

Lemma joined_step (l : Label) (st st' : State) :
  forallb exited (mThreads st) = true ->
  step l st = Next st' ->
  mThreads st' = mThreads st /\
  lCounter st' = lCounter st /\
  hDequeued st' = hDequeued st /\
  hCompleted st' = hCompleted st /\
  mNumBusyThreads st' = mNumBusyThreads st /\
  exists new, mJobsQueue st' = mJobsQueue st ++ new.
Proof.
  intros Hex H. destruct l as [|i]; simpl in H.
  - unfold clientStep in H.
    destruct (client st) as [|[pj| |e|e| |] k]; try discriminate H.
    + injection H as <-. simpl. repeat split. eexists. reflexivity.
    + destruct (waitForCompletion_waits st); [discriminate H|].
      injection H as <-. simpl. repeat split. exists []. symmetry. apply app_nil_r.
    + injection H as <-. simpl. repeat split. exists []. symmetry. apply app_nil_r.
    + destruct (numJobs e st =? 0); [|discriminate H].
      injection H as <-. simpl. repeat split. exists []. symmetry. apply app_nil_r.
    + injection H as <-. simpl. repeat split. exists []. symmetry. apply app_nil_r.
    + destruct (forallb exited (mThreads st)); [|discriminate H].
      destruct (mNumBusyThreads st =? 0); [|discriminate H].
      injection H as <-. simpl. repeat split. exists []. symmetry. apply app_nil_r.
  - unfold threadExecLoop in H.
    destruct (mThreads st !! i) as [w|] eqn:Hi; [|discriminate H].
    rewrite (proj1 (forallb_exited_lookup _) Hex i w Hi) in H. discriminate H.
Qed.

(** X7. Once every worker has left its loop (the state in which the destructor
    returns) nothing runs any more: whatever is in the queue, or is put
    there later, stays there, and the counter, the histories and the busy
    count are final. *)
Theorem joined_pool_runs_nothing (st st' : State) :
  forallb exited (mThreads st) = true ->
  reachable st st' ->
  forallb exited (mThreads st') = true /\
  lCounter st' = lCounter st /\
  hDequeued st' = hDequeued st /\
  hCompleted st' = hCompleted st /\
  getNumBusyThreads st' = getNumBusyThreads st /\
  exists new, mJobsQueue st' = mJobsQueue st ++ new.
Proof.
  intros Hex. unfold getNumBusyThreads.
  apply (reachable_invariant
           (fun s => forallb exited (mThreads s) = true /\
                     lCounter s = lCounter st /\
                     hDequeued s = hDequeued st /\
                     hCompleted s = hCompleted st /\
                     mNumBusyThreads s = mNumBusyThreads st /\
                     exists new, mJobsQueue s = mJobsQueue st ++ new)).
  - repeat split; try assumption. exists []. symmetry. apply app_nil_r.
  - intros l s s' (Hex' & Hc & Hd & Hcm & Hb & new & Hq) H.
    destruct (joined_step l s s' Hex' H)
      as (Hth & Hc' & Hd' & Hcm' & Hb' & new' & Hq').
    rewrite Hth, Hc', Hd', Hcm', Hb', Hq', Hq.
    repeat split; try assumption.
    exists (new ++ new'). symmetry. apply app_assoc.
Qed.

Lemma joined_pool_runs_nothing_witness :
  mJobsQueue (state_after [LClient; LClient; LWorker 0; LClient; LClient]
                (initial 1 [AddJob lFunction; Destroy; AddJob quickJob]))
  = [Direct lFunction; Direct quickJob] /\
  hDequeued (state_after [LClient; LClient; LWorker 0; LClient; LClient]
               (initial 1 [AddJob lFunction; Destroy; AddJob quickJob]))
  = hDequeued (state_after [LClient; LClient; LWorker 0; LClient]
                 (initial 1 [AddJob lFunction; Destroy; AddJob quickJob])).
Proof.
  split; [vm_compute; reflexivity|].
  apply (joined_pool_runs_nothing
           (state_after [LClient; LClient; LWorker 0; LClient]
              (initial 1 [AddJob lFunction; Destroy; AddJob quickJob])));
    [ vm_compute; reflexivity
    | exists [LClient]; vm_compute; reflexivity ].
Defined.

(** ** The executor test *)

Lemma compile_executor_test_cons (e : ExecutorId) (j : UserJob)
    (js : list UserJob) :
  compile (executor_test e (j :: js))
  = CExecIncr e :: CPush (Tracked e j) :: compile (executor_test e js).
Proof. reflexivity. Qed.

Lemma calls_executor_test (e : ExecutorId) (js : list UserJob) :
  sum_map (call_of e) (executor_test e js) = Z.of_nat (length js).
Proof.
  unfold executor_test. induction js as [|j js IH]; simpl.
  - reflexivity.
  - rewrite Nat.eqb_refl. lia.
Qed.

Lemma pending_executor_test (n : nat) (e : ExecutorId) (js : list UserJob) :
  Forall (fun j => sum_map user_incr (job_body j) = 1) js ->
  pending_incrs (initial n (executor_test e js)) = Z.of_nat (length js).
Proof.
  intros Hjs. unfold pending_incrs. simpl.
  rewrite (sum_map_replicate_zero worker_incrs WLoop n eq_refl).
  induction Hjs as [|j js Hj _ IH].
  - reflexivity.
  - rewrite compile_executor_test_cons. simpl sum_map. simpl length.
    unfold job_incrs at 1. simpl. rewrite Hj. lia.
Qed.

Lemma last_done_counts (e : ExecutorId) (rest : list Action) :
  last rest = Some (AExecutorDone e) -> 1 <= sum_map (action_done e) rest.
Proof.
  intros H. apply last_Some in H. destruct H as [l ->].
  rewrite sum_map_app. simpl. rewrite Nat.eqb_refl.
  pose proof (sum_map_nonneg (action_done e) l
                (fun a => proj1 (action_done_range e a))). lia.
Qed.

Lemma ends_with_done_tail (e : ExecutorId) (o : option PoolJob) (a : Action)
    (rest : list Action) :
  ends_with_done e (WRun o (a :: rest)) -> ends_with_done e (WRun o rest).
Proof.
  simpl. intros [H|H]; [discriminate H|].
  destruct rest as [|b rest]; [left; reflexivity|].
  right. rewrite last_cons_cons in H. exact H.
Qed.

Lemma tracked_job_ends_with_done (e : ExecutorId) (pj : PoolJob) :
  tracked_by e pj = 1 -> ends_with_done e (WRun (Some pj) (job_actions pj)).
Proof.
  destruct pj as [j|e' j]; simpl; [lia|].
  destruct (Nat.eqb_spec e e') as [<-|Hne]; [|lia].
  intros _. right. apply last_snoc.
Qed.

Lemma executor_test_inv_step (e : ExecutorId) (M : Z) (l : Label)
    (st st' : State) :
  executor_inv e M st -> executor_test_inv e st ->
  step l st = Next st' -> executor_test_inv e st'.
Proof.
  intros [_ Hcount _] [Halive Hqueue Hworkers Hclient Hdone] H.
  destruct l as [|i]; simpl in H.
  - unfold clientStep in H.
    destruct Hclient as [Hc | [(js & Hc) | (j & js & Hc)]].
    + rewrite Hc in H. discriminate H.
    + destruct js as [|j js].
      * rewrite Hc in H. simpl in H.
        destruct (Z.eqb_spec (numJobs e st) 0) as [Hz|]; [|discriminate H].
        injection H as <-. split; simpl; try assumption.
        -- left. reflexivity.
        -- intros _. rewrite Hcount in Hz. unfold outstanding in *.
           rewrite Hc in Hz. simpl in *. exact Hz.
      * rewrite Hc, compile_executor_test_cons in H. injection H as <-.
        split; simpl; try assumption.
        -- right. right. exists j, js. reflexivity.
        -- intros Hnil. discriminate Hnil.
    + rewrite Hc in H. injection H as <-. split; simpl; try assumption.
      * apply Forall_app. split; [exact Hqueue|].
        constructor; [|constructor]. simpl. rewrite Nat.eqb_refl. reflexivity.
      * right. left. exists js. reflexivity.
      * intros Hnil. destruct js; discriminate Hnil.
  - unfold threadExecLoop, grabNextJob, jobAvailable in H.
    destruct (mThreads st !! i) as [[| |origin [|a rest]|]|] eqn:Hi;
      try discriminate H.
    + rewrite Halive in H. injection H as <-. split; simpl; try assumption.
      * apply Forall_insert; [exact Hworkers | exact I].
      * intros Hnil. specialize (Hdone Hnil). unfold outstanding in *. simpl.
        rewrite (sum_map_insert _ _ _ _ _ Hi). simpl. lia.
    + rewrite Halive, orb_false_r in H.
      destruct (mJobsQueue st) as [|pj q] eqn:Hq; simpl in H; [discriminate H|].
      rewrite Halive in H. simpl in H. rewrite Hq in H. injection H as <-.
      inversion Hqueue as [|? ? Hpj Hq']; subst.
      split; simpl; try assumption; try reflexivity.
      * apply Forall_insert; [exact Hworkers|].
        apply tracked_job_ends_with_done. exact Hpj.
      * intros Hnil. specialize (Hdone Hnil). unfold outstanding in *.
        simpl in *. rewrite Hq in Hdone. simpl in Hdone.
        rewrite (sum_map_insert _ _ _ _ _ Hi). simpl.
        rewrite job_actions_tracked. lia.
    + injection H as <-. split; simpl; try assumption.
      * apply Forall_insert; [exact Hworkers | exact I].
      * intros Hnil. specialize (Hdone Hnil). unfold outstanding in *. simpl.
        rewrite (sum_map_insert _ _ _ _ _ Hi). simpl. lia.
    + injection H as <-.
      destruct (perform_frame a st) as (F1 & F2 & F3 & F4 & F5 & F6 & F7 & F8).
      assert (Hw : ends_with_done e (WRun origin (a :: rest))).
      { rewrite Forall_lookup in Hworkers. exact (Hworkers i _ Hi). }
      split; simpl; rewrite ?F1, ?F2, ?F4, ?F5; try assumption.
      * apply Forall_insert; [exact Hworkers|].
        exact (ends_with_done_tail e origin a rest Hw).
      * intros Hnil. specialize (Hdone Hnil). exfalso.
        destruct Hw as [Hw|Hw]; [discriminate Hw|].
        pose proof (last_done_counts e _ Hw) as Hone.
        pose proof (sum_map_lookup_le (worker_tracked e) _ i _
                      (worker_tracked_nonneg e) Hi) as Hle.
        pose proof (midcall_nonneg e (client st)).
        pose proof (sum_map_nonneg (tracked_by e) (mJobsQueue st)
                      (fun pj => proj1 (tracked_by_range e pj))).
        unfold outstanding in Hdone. simpl in Hle, Hone. lia.
Qed.

Lemma executor_test_inv_reachable (n : nat) (e : ExecutorId)
    (js : list UserJob) (st : State) :
  Z.of_nat (length js) <= INT_MAX ->
  reachable (initial n (executor_test e js)) st ->
  executor_inv e (Z.of_nat (length js)) st /\ executor_test_inv e st.
Proof.
  intros HM.
  apply (reachable_invariant
           (fun s => executor_inv e (Z.of_nat (length js)) s /\
                     executor_test_inv e s)).
  - split.
    + rewrite <- (calls_executor_test e js). apply executor_inv_initial.
    + split; simpl.
      * reflexivity.
      * constructor.
      * apply Forall_forall. intros w Hw.
        apply elem_of_replicate in Hw. destruct Hw as [-> _]. exact I.
      * right. left. exists js. reflexivity.
      * intros Hnil. destruct js; discriminate Hnil.
  - intros l s s' [He Ht] H. split.
    + destruct l as [|i]; simpl in H.
      * exact (executor_inv_client_step e _ s s' HM He H).
      * exact (executor_inv_worker_step e _ i s s' HM He H).
    + exact (executor_test_inv_step e _ l s s' He Ht H).
Qed.

Lemma done_workers_pend_nothing (e : ExecutorId) (ws : list Worker) :
  Forall (ends_with_done e) ws ->
  sum_map (worker_tracked e) ws = 0 ->
  sum_map worker_incrs ws = 0.
Proof.
  induction 1 as [|w ws Hw _ IH]; simpl; [reflexivity|].
  pose proof (worker_tracked_nonneg e w) as Hn.
  pose proof (sum_map_nonneg (worker_tracked e) ws (worker_tracked_nonneg e)).
  intros Hz. rewrite IH by lia.
  destruct w as [| |o rest|]; simpl in *; try lia.
  destruct Hw as [->|Hl]; [reflexivity|].
  pose proof (last_done_counts e rest Hl). lia.
Qed.

Lemma tracked_queue_empty (e : ExecutorId) (q : list PoolJob) :
  Forall (fun pj => tracked_by e pj = 1) q ->
  sum_map (tracked_by e) q = 0 -> q = [].
Proof.
  destruct 1 as [|pj q Hpj Hq]; [reflexivity|]. simpl.
  pose proof (sum_map_nonneg (tracked_by e) q
                (fun x => proj1 (tracked_by_range e x))). lia.
Qed.

(** X8. The test "ThreadPoolJobsExecutor": when the jobs, each incrementing the
    counter once, were given to an executor and the executor's
    [waitForCompletion] has returned, the counter is the number of jobs and
    the queue is empty.  The pool may still count a worker as busy then:
    the lambda decrements [mNumJobs] before the worker decrements
    [mNumBusyThreads]. *)
Theorem executor_wait_returns_after_every_job_ran
    (n : nat) (e : ExecutorId) (js : list UserJob) (st : State) :
  Z.of_nat (length js) <= INT_MAX ->
  Forall (fun j => sum_map user_incr (job_body j) = 1) js ->
  reachable (initial n (executor_test e js)) st ->
  client st = [] ->
  (lCounter st = Z.of_nat (length js) /\
   mJobsQueue st = [] /\ outstanding e st = 0) /\
  (exists st1,
      reachable (initial 1 (executor_test 0%nat [lFunction])) st1 /\
      client st1 = [] /\ getNumBusyThreads st1 = 1).
Proof.
  intros HM Hjs Hreach Hdone. split.
  - destruct (executor_test_inv_reachable n e js st HM Hreach)
      as [_ [Halive Hqueue Hworkers Hclient Hidle]].
    specialize (Hidle Hdone).
    pose proof (midcall_nonneg e (client st)) as H1.
    pose proof (sum_map_nonneg (tracked_by e) (mJobsQueue st)
                  (fun pj => proj1 (tracked_by_range e pj))) as H2.
    pose proof (sum_map_nonneg (worker_tracked e) (mThreads st)
                  (worker_tracked_nonneg e)) as H3.
    assert (Hq : mJobsQueue st = []).
    { apply (tracked_queue_empty e); [exact Hqueue|].
      unfold outstanding in Hidle. lia. }
    pose proof (counter_plus_pending _ _ Hreach) as Hsum.
    rewrite (pending_executor_test n e js Hjs) in Hsum.
    unfold pending_incrs in Hsum. rewrite Hq, Hdone in Hsum.
    rewrite (done_workers_pend_nothing e) in Hsum;
      [ | exact Hworkers | unfold outstanding in Hidle; lia ].
    simpl in Hsum. repeat split; [lia | exact Hq | exact Hidle].
  - exists (state_after (replicate 2 LClient ++ replicate 5 (LWorker 0) ++ [LClient])
              (initial 1 (executor_test 0%nat [lFunction]))).
    split; [exists (replicate 2 LClient ++ replicate 5 (LWorker 0) ++ [LClient])|];
      vm_compute; repeat split; reflexivity.
Qed.

Lemma executor_wait_returns_after_every_job_ran_witness :
  lCounter (state_after (replicate 2 LClient ++ replicate 5 (LWorker 0) ++ [LClient])
              (initial 1 (executor_test 0%nat [lFunction])))
  = 1.
Proof.
  apply (executor_wait_returns_after_every_job_ran 1 0%nat [lFunction]);
    [ unfold INT_MAX; simpl; lia
    | repeat constructor
    | exists (replicate 2 LClient ++ replicate 5 (LWorker 0) ++ [LClient]);
      vm_compute; reflexivity
    | vm_compute; reflexivity ].
Defined.

(** ** More on the job counter *)

Lemma unpaired_run_fails (ops : list JobCounter.Op) (c : Z) :
  0 <= c ->
  c + sum_map JobCounter.is_increment ops <= INT_MAX ->
  JobCounter.paired_from (Z.to_nat c) ops = false ->
  JobCounter.run ops c = None.
Proof.
  revert c. induction ops as [|[|] ops IH]; intros c Hc Hmax Hp; simpl in *.
  - discriminate Hp.
  - pose proof (sum_map_nonneg JobCounter.is_increment ops) as Hs.
    assert (0 <= sum_map JobCounter.is_increment ops)
      by (apply Hs; intros [|]; simpl; lia).
    unfold JobCounter.increment.
    rewrite wrap_int_id by (unfold INT_MIN, INT_MAX in *; lia).
    apply IH; [lia | lia |].
    replace (Z.to_nat (c + 1)) with (S (Z.to_nat c)) by lia. exact Hp.
  - unfold JobCounter.decrement.
    destruct (Z.ltb_spec 0 c) as [Hpos|Hle]; [|reflexivity].
    pose proof (sum_map_nonneg JobCounter.is_increment ops) as Hs.
    assert (0 <= sum_map JobCounter.is_increment ops)
      by (apply Hs; intros [|]; simpl; lia).
    rewrite wrap_int_id by (unfold INT_MIN, INT_MAX in *; lia).
    destruct (Z.to_nat c) as [|o] eqn:Eo; [lia|].
    apply IH; [lia | lia |].
    replace (Z.to_nat (c - 1)) with o by lia. exact Hp.
Qed.

(** X9. The assertion of [decrement] catches exactly the broken pairings: a
    sequence of calls runs into it if and only if some [decrement] has no
    earlier [increment] of its own.  When it does not, the count is the
    number of increments minus the number of decrements, and
    [waitForCompletion] returns exactly when the two are equal. *)
Theorem JobCounter_assertion_detects_unpaired (ops : list JobCounter.Op) :
  sum_map JobCounter.is_increment ops <= INT_MAX ->
  (JobCounter.run ops 0 = None <-> JobCounter.paired ops = false) /\
  (forall c, JobCounter.run ops 0 = Some c ->
     c = sum_map JobCounter.is_increment ops
         - sum_map JobCounter.is_decrement ops /\
     (JobCounter.waitForCompletion_returns c = true <->
      sum_map JobCounter.is_increment ops
      = sum_map JobCounter.is_decrement ops)).
Proof.
  intros Hmax. unfold JobCounter.paired.
  destruct (JobCounter.paired_from 0 ops) eqn:Hp.
  - destruct (paired_from_run ops 0) as [Hrun Hpos]; [lia | lia | exact Hp |].
    rewrite Hrun. split; [split; discriminate|].
    intros c Hc. injection Hc as <-. split; [lia|].
    unfold JobCounter.waitForCompletion_returns. rewrite Z.eqb_eq. lia.
  - rewrite (unpaired_run_fails ops 0); [| lia | lia | exact Hp].
    split; [split; reflexivity|]. intros c Hc. discriminate Hc.
Qed.

Lemma JobCounter_assertion_detects_unpaired_witness :
  JobCounter.run [JobCounter.Increment; JobCounter.Decrement;
                  JobCounter.Decrement; JobCounter.Increment] 0 = None.
Proof.
  apply (JobCounter_assertion_detects_unpaired
           [JobCounter.Increment; JobCounter.Decrement;
            JobCounter.Decrement; JobCounter.Increment]);
    [ unfold INT_MAX; simpl; lia | reflexivity ].
Defined.

(** ** More on the older pool *)

Lemma legacy_run_app (ls1 ls2 : list Label) (st st1 : State) :
  Legacy.run ls1 st = Next st1 ->
  Legacy.run (ls1 ++ ls2) st = Legacy.run ls2 st1.
Proof.
  revert st. induction ls1 as [|l ls1 IH]; intros st H; simpl in *.
  - injection H as ->. reflexivity.
  - destruct (Legacy.step l st); try discriminate. apply IH. exact H.
Qed.

Lemma legacy_submissions_run (js : list UserJob) (k : list Cmd) (st : State) :
  client st = map (fun j => CPush (Direct j)) js ++ k ->
  exists st', Legacy.run (replicate (length js) LClient) st = Next st' /\
              client st' = k /\
              mJobsQueue st' = mJobsQueue st ++ map Direct js /\
              mThreads st' = mThreads st /\
              mNumBusyThreads st' = mNumBusyThreads st /\
              lCounter st' = lCounter st /\
              hDequeued st' = hDequeued st /\
              hCompleted st' = hCompleted st.
Proof.
  revert st. induction js as [|j js IH]; intros st Hc.
  - exists st. rewrite app_nil_r. repeat split. exact Hc.
  - destruct (IH (set_client (map (fun j => CPush (Direct j)) js ++ k)
                    (addJob (Direct j) st)))
      as (st' & Hrun & Hc' & Hq' & Hth' & Hb' & Hl' & Hd' & Hcm');
      [reflexivity|].
    exists st'. simpl in *. unfold Legacy.clientStep. rewrite Hc.
    split; [exact Hrun|]. rewrite Hq', <- app_assoc.
    repeat split; assumption.
Qed.

(** X10. The constructor of [src/cpp/thread_pool.hpp] leaves
    [mNumBusyThreads] without a value.  A [waitForCompletion] called right
    after the submissions, before any worker has taken a job, finds all
    the jobs queued and none run; it returns at once when the count
    started at a value [b0 <= 0], the conjunction in its loop test being
    false, and it blocks when the count started above 0.  The current pool,
    whose count starts at 0, keeps the caller waiting in that state. *)
Theorem legacy_wait_depends_on_start_of_busy_count
    (b0 : Z) (n : nat) (js : list UserJob) :
  js <> [] ->
  (exists st,
      Legacy.run (replicate (length js) LClient)
                 (Legacy.constructed b0 n (submit_then_wait js)) = Next st /\
      client st = [CWait] /\
      mJobsQueue st = map Direct js /\
      mNumBusyThreads st = b0 /\
      lCounter st = 0 /\
      hDequeued st = [] /\ hCompleted st = [] /\
      (b0 <= 0 -> Legacy.step LClient st = Next (set_client [] st)) /\
      (0 < b0 -> Legacy.step LClient st = Blocked)) /\
  run (replicate (length js) LClient ++ [LClient])
      (initial n (submit_then_wait js)) = Blocked.
Proof.
  intros Hjs. split.
  - destruct (legacy_submissions_run js [CWait]
                (Legacy.constructed b0 n (submit_then_wait js)))
      as (st1 & Hrun & Hc & Hq & Hth & Hb & Hl & Hd & Hcm).
    { apply compile_submit_then_wait. }
    simpl in Hq, Hb, Hl, Hd, Hcm.
    exists st1. repeat split; try assumption.
    + intros Hle. simpl. unfold Legacy.clientStep, Legacy.waitForCompletion_waits.
      rewrite Hc, Hb. destruct (Z.ltb_spec 0 b0); [lia|].
      rewrite andb_false_r. reflexivity.
    + intros Hlt. simpl. unfold Legacy.clientStep, Legacy.waitForCompletion_waits.
      rewrite Hc, Hb, Hq. destruct (Z.ltb_spec 0 b0); [|lia].
      destruct js as [|j js]; [congruence|]. reflexivity.
  - destruct (submissions_run js [CWait] (initial n (submit_then_wait js)))
      as (st1 & Hrun & Hc & Hq & Hth & Ht & Hb).
    { apply compile_submit_then_wait. }
    simpl in Hq. rewrite (run_app _ _ _ _ Hrun). simpl.
    unfold clientStep, waitForCompletion_waits. rewrite Hc, Hq.
    destruct js as [|j js]; [congruence|]. reflexivity.
Qed.

Lemma legacy_wait_depends_on_start_of_busy_count_witness :
  exists st,
    Legacy.run (replicate (length [lFunction; quickJob]) LClient)
               (Legacy.constructed 7 3 (submit_then_wait [lFunction; quickJob]))
    = Next st /\
    Legacy.step LClient st = Blocked.
Proof.
  destruct (legacy_wait_depends_on_start_of_busy_count
              7 3 [lFunction; quickJob])
    as [(st & Hrun & _ & _ & _ & _ & _ & _ & _ & Hb) _]; [discriminate|].
  exists st. split; [exact Hrun | apply Hb; lia].
Defined.

(** * File names and directories *)

Lemma regex_match_none (s : string) : fs.regex_match s fs.RNone = false.
Proof. induction s as [|c s IH]; simpl; [reflexivity | exact IH]. Qed.

Lemma regex_match_alt (s : string) (r1 r2 : fs.Regex) :
  fs.regex_match s (fs.RAlt r1 r2)
  = fs.regex_match s r1 || fs.regex_match s r2.
Proof.
  revert r1 r2. induction s as [|c s IH]; intros r1 r2; simpl;
    [reflexivity | apply IH].
Qed.

Lemma regex_match_seq_none (s : string) (r : fs.Regex) :
  fs.regex_match s (fs.RSeq fs.RNone r) = false.
Proof. induction s as [|c s IH]; simpl; [reflexivity | exact IH]. Qed.

Lemma regex_match_seq_eps (s : string) (r : fs.Regex) :
  fs.regex_match s (fs.RSeq fs.REps r) = fs.regex_match s r.
Proof.
  destruct s as [|c s]; simpl; [reflexivity|].
  rewrite regex_match_alt, regex_match_seq_none. reflexivity.
Qed.

Lemma regex_match_star_class (s : string) (cl : list (ascii * ascii)) :
  fs.regex_match s (fs.RStar (fs.RClass cl))
  = fs.all_chars (fs.in_class cl) s.
Proof.
  induction s as [|c s IH]; simpl; [reflexivity|].
  destruct (fs.in_class cl c); simpl.
  - rewrite regex_match_seq_eps. exact IH.
  - apply regex_match_seq_none.
Qed.

(** A bracket expression followed by a starred bracket expression matches
    the strings whose first character is in the first class and whose other
    characters are in the second. *)
Lemma regex_match_class_star (s : string) (cl1 cl2 : list (ascii * ascii)) :
  fs.regex_match s (fs.RSeq (fs.RClass cl1) (fs.RStar (fs.RClass cl2)))
  = match s with
    | EmptyString => false
    | String c t => fs.in_class cl1 c && fs.all_chars (fs.in_class cl2) t
    end.
Proof.
  destruct s as [|c s]; simpl; [reflexivity|].
  destruct (fs.in_class cl1 c); simpl.
  - rewrite regex_match_seq_eps. apply regex_match_star_class.
  - apply regex_match_seq_none.
Qed.

Lemma all_chars_ext (f g : ascii -> bool) (s : string) :
  (forall c, f c = g c) -> fs.all_chars f s = fs.all_chars g s.
Proof.
  intros H. induction s as [|c s IH]; simpl; [reflexivity|].
  rewrite H, IH. reflexivity.
Qed.

Lemma all_chars_impl (f g : ascii -> bool) (s : string) :
  (forall c, f c = true -> g c = true) ->
  fs.all_chars f s = true -> fs.all_chars g s = true.
Proof.
  intros H. induction s as [|c s IH]; simpl; [reflexivity|].
  rewrite !andb_true_iff. intros [Hc Hs]. split; [apply H; exact Hc | apply IH; exact Hs].
Qed.

Ltac every_char c :=
  destruct c as [[] [] [] [] [] [] [] []]; vm_compute; reflexivity.

Lemma first_class_spec (c : ascii) :
  fs.in_class fs.first_class c = fs.is_portable_first c.
Proof. every_char c. Qed.

Lemma rest_class_spec (c : ascii) :
  fs.in_class fs.rest_class c = fs.is_portable c.
Proof. every_char c. Qed.

Lemma relaxed_rest_class_spec (c : ascii) :
  fs.in_class fs.relaxed_rest_class c = fs.is_portable_relaxed c.
Proof. every_char c. Qed.

(** The common shape of the two checks. *)
Lemma name_check_chars (limit : nat) (cl : list (ascii * ascii)) (s : string) :
  (if String.eqb s "." || String.eqb s ".." || (limit <? String.length s)%nat
   then false
   else fs.regex_match s
          (fs.RSeq (fs.RClass fs.first_class) (fs.RStar (fs.RClass cl))))
  = negb (String.eqb s ".") && negb (String.eqb s "..")
    && (String.length s <=? limit)%nat
    && match s with
       | EmptyString => false
       | String c t =>
           fs.is_portable_first c && fs.all_chars (fs.in_class cl) t
       end.
Proof.
  rewrite regex_match_class_star.
  destruct (String.eqb s "."); [reflexivity|].
  destruct (String.eqb s ".."); [reflexivity|].
  rewrite Nat.leb_antisym.
  destruct (limit <? String.length s)%nat; [reflexivity|].
  cbn [negb andb orb]. destruct s as [|c t]; [reflexivity|].
  rewrite first_class_spec. reflexivity.
Qed.

(** X11. [isPOSIXFullyPortableFileName] does what the comment above it says: it
    accepts exactly the names other than "." and ".." that have 1 to 14
    characters, all of them letters, digits, [.], [_] or [-], the first one
    not a hyphen. *)
Theorem isPOSIXFullyPortableFileName_spec (pFileName : string) :
  fs.isPOSIXFullyPortableFileName pFileName
  = negb (String.eqb (fs.c_str pFileName) ".")
    && negb (String.eqb (fs.c_str pFileName) "..")
    && (String.length (fs.c_str pFileName) <=? 14)%nat
    && match fs.c_str pFileName with
       | EmptyString => false
       | String c t => fs.is_portable_first c && fs.all_chars fs.is_portable t
       end.
Proof.
  unfold fs.isPOSIXFullyPortableFileName. cbv zeta.
  rewrite name_check_chars.
  destruct (fs.c_str pFileName) as [|c t]; [reflexivity|].
  rewrite (all_chars_ext _ _ t rest_class_spec). reflexivity.
Qed.

(** X12. [isPOSIXFullyPortableFileNameRelaxed]: the same with up to 254
    characters and with spaces allowed after the first character. *)
Theorem isPOSIXFullyPortableFileNameRelaxed_spec (pFileName : string) :
  fs.isPOSIXFullyPortableFileNameRelaxed pFileName
  = negb (String.eqb (fs.c_str pFileName) ".")
    && negb (String.eqb (fs.c_str pFileName) "..")
    && (String.length (fs.c_str pFileName) <=? 254)%nat
    && match fs.c_str pFileName with
       | EmptyString => false
       | String c t =>
           fs.is_portable_first c && fs.all_chars fs.is_portable_relaxed t
       end.
Proof.
  unfold fs.isPOSIXFullyPortableFileNameRelaxed. cbv zeta.
  rewrite name_check_chars.
  destruct (fs.c_str pFileName) as [|c t]; [reflexivity|].
  rewrite (all_chars_ext _ _ t relaxed_rest_class_spec). reflexivity.
Qed.

Lemma all_chars_and (f g : ascii -> bool) (s : string) :
  fs.all_chars (fun c => f c && g c) s = fs.all_chars f s && fs.all_chars g s.
Proof.
  induction s as [|c s IH]; simpl; [reflexivity|].
  rewrite IH. destruct (f c), (g c), (fs.all_chars f s); reflexivity.
Qed.

Lemma portable_is_relaxed_without_space (c : ascii) :
  fs.is_portable c
  = fs.is_portable_relaxed c && negb (Ascii.eqb c " "%char).
Proof. every_char c. Qed.

Lemma portable_first_is_no_space (c : ascii) :
  fs.is_portable_first c
  = fs.is_portable_first c && negb (Ascii.eqb c " "%char).
Proof. every_char c. Qed.

(** X13. The strict check is the relaxed one restricted to names of at most 14
    characters without spaces. *)
Theorem strict_name_is_short_relaxed_name_without_space (pFileName : string) :
  fs.isPOSIXFullyPortableFileName pFileName
  = fs.isPOSIXFullyPortableFileNameRelaxed pFileName
    && (String.length (fs.c_str pFileName) <=? 14)%nat
    && fs.all_chars (fun c => negb (Ascii.eqb c " "%char)) (fs.c_str pFileName).
Proof.
  unfold fs.isPOSIXFullyPortableFileName, fs.isPOSIXFullyPortableFileNameRelaxed.
  cbv zeta. rewrite !name_check_chars.
  destruct (negb (String.eqb (fs.c_str pFileName) ".")); [|reflexivity].
  destruct (negb (String.eqb (fs.c_str pFileName) "..")); [|reflexivity].
  cbn [andb].
  destruct (Nat.leb_spec (String.length (fs.c_str pFileName)) 14) as [H14|H14].
  - destruct (Nat.leb_spec (String.length (fs.c_str pFileName)) 254); [|lia].
    cbn [andb]. rewrite andb_true_r.
    destruct (fs.c_str pFileName) as [|c t]; [reflexivity|].
    cbn [fs.all_chars].
    rewrite (all_chars_ext _ _ t rest_class_spec),
      (all_chars_ext _ _ t relaxed_rest_class_spec).
    rewrite (all_chars_ext _ _ t portable_is_relaxed_without_space).
    rewrite all_chars_and, (portable_first_is_no_space c).
    destruct (fs.is_portable_first c), (negb (Ascii.eqb c " "%char)),
      (fs.all_chars fs.is_portable_relaxed t),
      (fs.all_chars (fun c0 => negb (Ascii.eqb c0 " "%char)) t); reflexivity.
  - cbn [andb]. rewrite andb_false_r. reflexivity.
Qed.

Lemma relaxed_splits_no_path (c : ascii) :
  fs.is_portable_relaxed c = true -> negb (fs.splits_path c) = true.
Proof. destruct c as [[] [] [] [] [] [] [] []]; vm_compute; congruence. Qed.

Lemma first_splits_no_path (c : ascii) :
  fs.is_portable_first c = true ->
  negb (fs.splits_path c) = true /\ c <> "-"%char /\ c <> " "%char.
Proof.
  destruct c as [[] [] [] [] [] [] [] []]; vm_compute;
    intros H; try discriminate H; repeat split; discriminate.
Qed.

(** X14. A name accepted by the relaxed check (hence by the strict one) is
    not empty, not "." or "..", has at most 254 characters, starts with
    neither a hyphen nor a space, and contains no slash, backslash or
    NUL. *)
Theorem accepted_name_cannot_leave_directory (pFileName : string) :
  fs.isPOSIXFullyPortableFileNameRelaxed pFileName = true ->
  fs.c_str pFileName <> EmptyString /\
  fs.c_str pFileName <> "." /\
  fs.c_str pFileName <> ".." /\
  (String.length (fs.c_str pFileName) <= 254)%nat /\
  fs.all_chars (fun c => negb (fs.splits_path c)) (fs.c_str pFileName) = true /\
  (forall c t, fs.c_str pFileName = String c t ->
               c <> "-"%char /\ c <> " "%char).
Proof.
  unfold fs.isPOSIXFullyPortableFileNameRelaxed. cbv zeta.
  rewrite name_check_chars, !andb_true_iff, !negb_true_iff.
  intros [[[Hdot Hdotdot] Hlen] Hchars].
  apply String.eqb_neq in Hdot, Hdotdot. apply Nat.leb_le in Hlen.
  destruct (fs.c_str pFileName) as [|c t]; [discriminate Hchars|].
  apply andb_true_iff in Hchars. destruct Hchars as [Hc Ht].
  destruct (first_splits_no_path c Hc) as (Hc1 & Hc2 & Hc3).
  rewrite (all_chars_ext _ _ t relaxed_rest_class_spec) in Ht.
  repeat split; try assumption; try discriminate.
  - simpl. rewrite Hc1. simpl.
    exact (all_chars_impl _ _ t relaxed_splits_no_path Ht).
  - injection H as -> _. exact Hc2.
  - injection H as -> _. exact Hc3.
Qed.

Lemma accepted_name_cannot_leave_directory_witness :
  fs.all_chars (fun c => negb (fs.splits_path c)) (fs.c_str "my notes-2.txt")
  = true.
Proof.
  apply (accepted_name_cannot_leave_directory "my notes-2.txt").
  vm_compute. reflexivity.
Defined.

(** ** Directory search *)

Lemma find_first {A : Type} (f : A -> bool) (l : list A) (x : A) :
  List.find f l = Some x <->
  exists before after, l = before ++ x :: after /\
                       Forall (fun y => f y = false) before /\ f x = true.
Proof.
  induction l as [|y l IH]; simpl.
  - split; [discriminate|]. intros (b & a & H & _). destruct b; discriminate H.
  - destruct (f y) eqn:Hy.
    + split.
      * intros H. injection H as <-. exists [], l. repeat split; [constructor | exact Hy].
      * intros ([|z b] & a & H & Hb & Hx); simpl in H.
        -- injection H as -> _. reflexivity.
        -- injection H as -> _. inversion Hb; congruence.
    + rewrite IH. split.
      * intros (b & a & -> & Hb & Hx). exists (y :: b), a.
        repeat split; [constructor; assumption | exact Hx].
      * intros ([|z b] & a & H & Hb & Hx); simpl in H.
        -- injection H as -> _. congruence.
        -- injection H as -> ->. inversion Hb; subst.
           exists b, a. repeat split; assumption.
Qed.

Lemma find_nothing {A : Type} (f : A -> bool) (l : list A) :
  List.find f l = None <-> Forall (fun y => f y = false) l.
Proof.
  induction l as [|y l IH]; simpl.
  - split; [constructor | reflexivity].
  - destruct (f y) eqn:Hy.
    + split; [discriminate|]. intros H. inversion H; congruence.
    + rewrite IH. split.
      * intros H. constructor; assumption.
      * intros H. inversion H; assumption.
Qed.

(** X15. [pathForFileWithRootInDir] returns the directory, the separator and the
    first name, in the order of [readdir], that begins with the root.  It
    fails with the [errno] of [opendir] when the directory cannot be opened
    and with [ENOENT] when no name begins with the root. *)
Theorem pathForFileWithRootInDir_spec
    (endsWith beginsWith : string -> string -> bool) (ENOENT : Z)
    (opendir : string -> Z + list string) (win32 : bool)
    (pDir pFileNameRoot : string) :
  (forall path,
     fs.pathForFileWithRootInDir endsWith beginsWith ENOENT opendir win32
       pDir pFileNameRoot = inr path <->
     exists before e after,
       opendir pDir = inr (before ++ e :: after) /\
       Forall (fun x => beginsWith x pFileNameRoot = false) before /\
       beginsWith e pFileNameRoot = true /\
       path = String.append pDir (String.append (fs.separator win32) e)) /\
  (forall err,
     fs.pathForFileWithRootInDir endsWith beginsWith ENOENT opendir win32
       pDir pFileNameRoot = inl err <->
     opendir pDir = inl err \/
     exists entries,
       opendir pDir = inr entries /\
       Forall (fun x => beginsWith x pFileNameRoot = false) entries /\
       err = ENOENT).
Proof.
  unfold fs.pathForFileWithRootInDir, fs.listDir. simpl.
  destruct (opendir pDir) as [errno|entries].
  - split.
    + intros path. split; [discriminate|].
      intros (b & e & a & H & _). discriminate H.
    + intros err. split.
      * intros H. injection H as ->. left. reflexivity.
      * intros [H | (l & H & _)]; [injection H as ->; reflexivity | discriminate H].
  - destruct (List.find (fun e => beginsWith e pFileNameRoot) entries)
      as [e|] eqn:Hfind.
    + apply find_first in Hfind. destruct Hfind as (b & a & -> & Hb & He).
      split.
      * intros path. split.
        -- intros H. injection H as <-. exists b, e, a. repeat split; assumption.
        -- intros (b' & e' & a' & H & Hb' & He' & ->). injection H as H.
           assert (Hf : List.find (fun x => beginsWith x pFileNameRoot)
                          (b ++ e :: a) = Some e').
           { rewrite H. apply find_first. exists b', a'. repeat split; assumption. }
           assert (Hf' : List.find (fun x => beginsWith x pFileNameRoot)
                           (b ++ e :: a) = Some e).
           { apply find_first. exists b, a. repeat split; assumption. }
           congruence.
      * intros err. split; [discriminate|].
        intros [H | (l & H & Hl & _)]; [discriminate H|].
        injection H as <-. apply Forall_app in Hl. destruct Hl as [_ Hl].
        inversion Hl; congruence.
    + apply find_nothing in Hfind. split.
      * intros path. split; [discriminate|].
        intros (b & e & a & H & _ & He & _). injection H as ->.
        apply Forall_app in Hfind. destruct Hfind as [_ Hl].
        inversion Hl; congruence.
      * intros err. split.
        -- intros H. injection H as <-. right. exists entries.
           repeat split. exact Hfind.
        -- intros [H | (l & _ & _ & ->)]; [discriminate H | reflexivity].
Qed.

Lemma filter_sublist {A : Type} (f : A -> bool) (l : list A) :
  sublist (List.filter f l) l.
Proof.
  induction l as [|x l IH]; simpl; [constructor|].
  destruct (f x); [apply sublist_skip | apply sublist_cons]; exact IH.
Qed.

(** X16. [listDir] fails exactly when [opendir] does, with its [errno].
    Otherwise it returns names of the directory, in the order of [readdir]
    and as often as [readdir] gave them: all of them for the empty ending
    ("." and ".." included), and else those for which [endsWith] holds. *)
Theorem listDir_spec
    (endsWith : string -> string -> bool)
    (opendir : string -> Z + list string) (pPath pEnding : string) :
  match opendir pPath with
  | inl errno => fs.listDir endsWith opendir pPath pEnding = inl errno
  | inr entries =>
      exists lList,
        fs.listDir endsWith opendir pPath pEnding = inr lList /\
        sublist lList entries /\
        (pEnding = EmptyString -> lList = entries) /\
        (forall x, In x lList <->
                   In x entries /\
                   (pEnding = EmptyString \/ endsWith x pEnding = true))
  end.
Proof.
  unfold fs.listDir. destruct (opendir pPath) as [errno|entries]; [reflexivity|].
  eexists. split; [reflexivity|].
  destruct (String.eqb_spec pEnding EmptyString) as [->|Hne].
  - repeat split; try tauto. reflexivity.
  - split; [apply filter_sublist|]. split; [congruence|].
    intros x. rewrite filter_In. split.
    + intros [Hin Hx]. split; [exact Hin | right; exact Hx].
    + intros [Hin [He|Hx]]; [congruence | split; assumption].
Qed.
